(** * cozy-stack: sessions, permissions and the static asset handler

    A shallow embedding of three Go files of the repository,

      - [web/statik/handler.go], package [statik]  (module [Statik]),
      - [permissions.go] of package [permission]   (module [Permission]),
      - [session.go] of package [session]          (module [Session]),

    together with the functions of Go's [strings] and [path] packages they
    call (modules [GoStrings] and [GoPath]).  The definitions come first;
    the facts about them follow, module by module ([GoStringsFacts],
    [StatikFacts], [PermissionFacts], [SessionFacts]).

    Conventions.  A Go [string] is a sequence of bytes, here a [string] (a
    list of [ascii]); a Go [int] index is a [Z]; a slice expression that Go
    rejects at run time is [None]; a Go [map] is a [gmap], and a [nil] map
    is [None] where the code tells it from an empty one; a slice of rules
    is a [list]; a time is a number of nanoseconds. *)

From Stdlib Require Import ZArith Lia List Ascii String Bool.
From stdpp Require Import base option list gmap strings sets fin_maps.

Local Open Scope Z_scope.

(* ===================================================================== *)
(** * Go's [strings] package, as far as the sources use it *)
(* ===================================================================== *)

Module GoStrings.

(** [len(s)] *)
Definition len (s : string) : Z := Z.of_nat (String.length s).

(** The first [n] bytes of [s], and [s] without them. *)
Fixpoint stake (n : nat) (s : string) : string :=
  match n, s with
  | S n', String a s' => String a (stake n' s')
  | _, _ => ""
  end.

Fixpoint sdrop (n : nat) (s : string) : string :=
  match n, s with
  | S n', String _ s' => sdrop n' s'
  | _, _ => s
  end.

(** [s[lo:hi]]: Go panics unless [0 <= lo <= hi <= len(s)]. *)
Definition slice (s : string) (lo hi : Z) : option string :=
  if (0 <=? lo) && (lo <=? hi) && (hi <=? len s)
  then Some (stake (Z.to_nat (hi - lo)) (sdrop (Z.to_nat lo) s))
  else None.

(** [strings.IndexByte(s, c)]: index of the first [c] in [s], or [-1]. *)
Fixpoint IndexByte (s : string) (c : ascii) : Z :=
  match s with
  | "" => -1
  | String a s' =>
      if Ascii.eqb a c then 0
      else let i := IndexByte s' c in if i <? 0 then -1 else i + 1
  end.

(** [strings.LastIndexByte(s, c)]: index of the last [c] in [s], or [-1]. *)
Fixpoint LastIndexByte (s : string) (c : ascii) : Z :=
  match s with
  | "" => -1
  | String a s' =>
      let i := LastIndexByte s' c in
      if 0 <=? i then i + 1 else if Ascii.eqb a c then 0 else -1
  end.

(** [strings.HasPrefix(s, prefix)] *)
Fixpoint HasPrefix (s prefix : string) : bool :=
  match prefix, s with
  | "", _ => true
  | String p prefix', String a s' => Ascii.eqb a p && HasPrefix s' prefix'
  | String _ _, "" => false
  end.

(** [strings.TrimPrefix(s, prefix)] *)
Definition TrimPrefix (s prefix : string) : string :=
  if HasPrefix s prefix then sdrop (String.length prefix) s else s.

(** [strings.Index(s, substr)]: index of the first occurrence, or [-1]. *)
Fixpoint Index (s substr : string) : Z :=
  if HasPrefix s substr then 0
  else match s with
       | "" => -1
       | String _ s' =>
           let i := Index s' substr in if i <? 0 then -1 else i + 1
       end.

(** [strings.Contains(s, substr)] *)
Definition Contains (s substr : string) : bool := 0 <=? Index s substr.

(** [strings.SplitN(s, sep, 2)] for a one-byte separator: cut at the first
    separator, if there is one. *)
Definition SplitN2 (s : string) (sep : ascii) : list string :=
  let i := IndexByte s sep in
  if i <? 0 then [s]
  else [stake (Z.to_nat i) s; sdrop (Z.to_nat (i + 1)) s].

(** [strings.HasSuffix(s, suffix)] *)
Definition HasSuffix (s suffix : string) : bool :=
  (String.length suffix <=? String.length s)%nat
  && String.eqb (sdrop (String.length s - String.length suffix) s) suffix.

(** [strings.TrimSuffix(s, suffix)] *)
Definition TrimSuffix (s suffix : string) : string :=
  if HasSuffix s suffix
  then stake (String.length s - String.length suffix) s
  else s.

(** No byte [c] occurs in [s]. *)
Definition byte_free (c : ascii) (s : string) : Prop :=
  forall a b, s <> a +:+ String c b.

End GoStrings.

(* ===================================================================== *)
(** * Go's [path] package: [Clean], [Split], [Join], [Base], [Dir] *)
(* ===================================================================== *)

Module GoPath.
Import GoStrings.

(** The write buffer of [Clean]: the bytes written so far, last one first. *)
Definition lazybuf := list ascii.

Definition buf_string (out : lazybuf) : string :=
  string_of_list_ascii (rev out).

(** [out.w--; for out.w > dotdot && out.index(out.w) != '/' { out.w-- }]:
    drop the last byte, and go on while more than [dotdot] bytes are left
    and the byte just dropped is not a slash. *)
Fixpoint backtrack (out : lazybuf) (dotdot : nat) : lazybuf :=
  match out with
  | [] => []
  | c :: out' =>
      if (dotdot <? length out')%nat && negb (Ascii.eqb c "/")
      then backtrack out' dotdot
      else out'
  end.

(** [r == n || path[r] == '/']: the path element ends here. *)
Definition elem_end (p : string) : bool :=
  match p with
  | "" => true
  | String c _ => Ascii.eqb c "/"
  end.

(** The main loop of [Clean], reading the rest of the path.  [inelem] says
    that the bytes of a real path element are being copied. *)
Fixpoint clean_loop (rooted inelem : bool) (p : string)
    (out : lazybuf) (dotdot : nat) : lazybuf :=
  match p with
  | "" => out
  | String c p' =>
      if Ascii.eqb c "/" then clean_loop rooted false p' out dotdot
      else if inelem then clean_loop rooted true p' (c :: out) dotdot
      else
        let real :=
          let out1 :=
            if (rooted && negb (length out =? 1)%nat)
               || (negb rooted && negb (length out =? 0)%nat)
            then "/"%char :: out else out in
          clean_loop rooted true p' (c :: out1) dotdot in
        if Ascii.eqb c "." then
          match p' with
          | "" => clean_loop rooted false p' out dotdot
          | String c2 p'' =>
              if Ascii.eqb c2 "/" then clean_loop rooted false p' out dotdot
              else if Ascii.eqb c2 "." && elem_end p'' then
                (* a [..] element *)
                if (dotdot <? length out)%nat
                then clean_loop rooted false p'' (backtrack out dotdot) dotdot
                else if negb rooted then
                  let out1 :=
                    if (0 <? length out)%nat then "/"%char :: out else out in
                  let out2 := "."%char :: "."%char :: out1 in
                  clean_loop rooted false p'' out2 (length out2)
                else clean_loop rooted false p'' out dotdot
              else real
          end
        else real
  end.

(** [path.Clean] *)
Definition Clean (p : string) : string :=
  match p with
  | "" => "."
  | String c _ =>
      let rooted := Ascii.eqb c "/" in
      let out :=
        if rooted then clean_loop true false (sdrop 1 p) ["/"%char] 1
        else clean_loop false false p [] 0 in
      match out with
      | [] => "."
      | _ => buf_string out
      end
  end.

(** [path.Split]: [path[:i+1], path[i+1:]] for the last slash [i]. *)
Definition Split (p : string) : string * string :=
  let i := LastIndexByte p "/" in
  (stake (Z.to_nat (i + 1)) p, sdrop (Z.to_nat (i + 1)) p).

(** [path.Join]: the non-leading-empty elements, separated by slashes,
    cleaned; the empty string when every element is empty. *)
Fixpoint join_buf (buf : string) (elem : list string) : string :=
  match elem with
  | [] => buf
  | e :: elem' =>
      if negb (String.eqb buf "") || negb (String.eqb e "")
      then join_buf ((if negb (String.eqb buf "") then buf +:+ "/" else buf) +:+ e) elem'
      else join_buf buf elem'
  end.

Definition Join (elem : list string) : string :=
  if forallb (fun e => String.eqb e "") elem then ""
  else Clean (join_buf "" elem).

(** Strip the trailing slashes of a path. *)
Fixpoint trim_slashes (p : string) : string :=
  match p with
  | "" => ""
  | String c p' =>
      let t := trim_slashes p' in
      if String.eqb t "" && Ascii.eqb c "/" then "" else String c t
  end.

(** [path.Base] *)
Definition Base (p : string) : string :=
  if String.eqb p "" then "."
  else
    let p1 := trim_slashes p in
    let i := LastIndexByte p1 "/" in
    let p2 := if 0 <=? i then sdrop (Z.to_nat (i + 1)) p1 else p1 in
    if String.eqb p2 "" then "/" else p2.

(** [path.Dir] *)
Definition Dir (p : string) : string := Clean (fst (Split p)).

(** The loop of [path.Ext], [for i := len(path) - 1; i >= 0 &&
    path[i] != '/'; i--]: [n] is [i + 1]. *)
Fixpoint ext_loop (path : string) (n : nat) : string :=
  match n with
  | O => ""
  | S i =>
      match String.get i path with
      | Some c =>
          if Ascii.eqb c "/" then ""
          else if Ascii.eqb c "." then sdrop i path
          else ext_loop path i
      | None => ""
      end
  end.

(** [path.Ext] *)
Definition Ext (path : string) : string :=
  ext_loop path (String.length path).

End GoPath.

(* ===================================================================== *)
(** * [web/statik/handler.go] *)
(* ===================================================================== *)

Module Statik.
Import GoStrings.

(** One turn of the [switch] in [isLongHexString].  The loop ranges over the
    runes of [s]; a byte of 128 or more never decodes to one of the runes
    below, so the test can be made byte by byte. *)
Definition isHexByte (c : ascii) : bool :=
  let n := Z.of_N (N_of_ascii c) in
  ((48 <=? n) && (n <=? 57))        (* '0' .. '9' *)
  || ((97 <=? n) && (n <=? 102))    (* 'a' .. 'f' *)
  || ((65 <=? n) && (n <=? 70)).    (* 'A' .. 'F' *)

Fixpoint allHex (s : string) : bool :=
  match s with
  | "" => true
  | String c s' => if isHexByte c then allHex s' else false
  end.

Definition isLongHexString (s : string) : bool :=
  if len s <? 10 then false else allHex s.

(** [ExtractAssetID]: [(file, id)], or [None] if a slice expression panics
    (it never does, see [StatikFacts.ExtractAssetID_cases]). *)
Definition ExtractAssetID (file : string) : option (string * string) :=
  let base := GoPath.Base file in
  let off1 := IndexByte base "." + 1 in
  if off1 <? len base then
    tl ← slice base off1 (len base);
    let off2 := off1 + IndexByte tl "." in
    if off1 <? off2 then
      s ← slice base off1 off2;
      if isLongHexString s || String.eqb s "immutable" then
        let dir := GoPath.Dir file in
        hd ← slice base 0 (off1 - 1);
        ext ← slice base off2 (len base);
        let file' := hd +:+ ext in
        Some (if negb (String.eqb dir ".") then GoPath.Join [dir; file'] else file', s)
      else Some (file, "")
    else Some (file, "")
  else Some (file, "").

(** ** Requests and headers *)

(** [http.Header]: the values of each header, under its canonical name. *)
Definition Header := gmap string (list string).

(** [header.Get(key)]: the first value of [key], or the empty string. *)
Definition Header_Get (header : Header) (key : string) : string :=
  match header !! key with
  | Some (v :: _) => v
  | _ => ""
  end.

(** ** [GetLanguageFromHeader]

    [consts.DefaultLocale], [consts.SupportedLocales],
    [utils.SplitTrimString] and [utils.IsInArray] are declared in packages
    of the repository that are not among the sources: they are parameters
    of the function. *)
Section Language.
Variable DefaultLocale : string.
Variable SupportedLocales : list string.
Variable SplitTrimString : string -> string -> list string.
Variable IsInArray : string -> list string -> bool.

(** The body of the [for] loop over [acceptLanguages]; [lang] is the
    named result. *)
Fixpoint language_loop (acceptLanguages : list string) (lang : string)
    : option string :=
  match acceptLanguages with
  | [] => Some lang
  | tag :: rest =>
      tag ← (let i := Index tag ";q=" in
             if 0 <=? i then slice tag 0 i else Some tag);
      tag ← (let i := IndexByte tag "-" in
             if 0 <=? i then slice tag 0 i else Some tag);
      if IsInArray tag SupportedLocales then Some tag
      else language_loop rest lang
  end.

Definition GetLanguageFromHeader (header : Header) : option string :=
  let lang := DefaultLocale in
  let acceptHeader := Header_Get header "Accept-Language" in
  if String.eqb acceptHeader "" then Some lang
  else language_loop (SplitTrimString acceptHeader ",") lang.
End Language.

(** *** The language a tag stands for *)

(** The part of [s] before the first occurrence of [sep]; all of [s] when
    [sep] does not occur. *)
Fixpoint before (sep s : string) : string :=
  if HasPrefix s sep then ""
  else match s with
       | "" => ""
       | String c s' => String c (before sep s')
       end.

(** A language tag without its quality factor and its country variant. *)
Definition primary_language (tag : string) : string :=
  before "-" (before ";q=" tag).

(** ** [Handler.ServeHTTP] and [Handler.ServeFile] *)

Definition assetsPrefix : string := "/assets".
Definition assetsExtPrefix : string := "/assets/ext".

Definition StatusNotFound : Z := 404.
Definition StatusMethodNotAllowed : Z := 405.
Definition MethodGet : string := "GET".
Definition MethodHead : string := "HEAD".

(** The fields of [http.Request] the handler reads. *)
Record Request := {
  Method : string;
  URL_Path : string;
  Host : string;
  Req_Header : Header;
}.

(** [modelAsset.Asset], as far as [ServeFile] uses it. *)
Record Asset := {
  Etag : string;
  Mime : string;
  Size : string;           (* [f.Size()] *)
  BrotliSize : string;     (* [f.BrotliSize()] *)
  Reader : string;         (* what [f.Reader()] yields *)
  BrotliReader : string;   (* what [f.BrotliReader()] yields *)
}.

(** What the handler does to the outside: the calls on the response writer
    and on the packages it consults, in order. *)
Inductive call :=
  | WriteHeader (status : Z)                   (* [w.WriteHeader] *)
  | HttpError (msg : string) (status : Z)      (* [http.Error(w, ...)] *)
  | HeaderSet (key value : string)             (* [w.Header().Set] *)
  | HeaderAdd (key value : string)             (* [w.Header().Add] *)
  | Copy (content : string)                    (* [io.Copy(w, ...)] *)
  | GetInstance (host : string)                (* [lifecycle.GetInstance] *)
  | AssetsGet (name context : string)          (* [assets.Get] *)
  | CheckPreconditions (etag : string)         (* [utils.CheckPreconditions] *)
  | Panic.                                     (* a run-time panic *)

(** The answers of the packages the handler consults. *)
Record Env := {
  (* the [ContextName] of the instance, when [err == nil] *)
  lifecycle_GetInstance : string -> option string;
  assets_Get : string -> string -> option Asset;
  (* [true]: the preconditions settled the response *)
  utils_CheckPreconditions : Request -> string -> bool;
}.

Definition ServeFile (env : Env) (r : Request) (f : Asset) (checkETag : bool)
    : list call :=
  let pre := if checkETag then [CheckPreconditions (Etag f)] else [] in
  if checkETag && utils_CheckPreconditions env r (Etag f) then pre
  else
    let acceptsBrotli :=
      Contains (Header_Get (Req_Header r) "Accept-Encoding") "br" in
    pre
    ++ [HeaderSet "Content-Type" (Mime f);
        HeaderSet "Content-Length" (Size f);
        HeaderSet "Vary" "Origin";
        HeaderAdd "Vary" "Accept-Encoding"]
    ++ (if acceptsBrotli
        then [HeaderSet "Content-Encoding" "br";
              HeaderSet "Content-Length" (BrotliSize f)]
        else [HeaderSet "Content-Length" (Size f)])
    ++ (if checkETag
        then [HeaderSet "Etag" (Etag f);
              HeaderSet "Cache-Control" "no-cache, public"]
        else [HeaderSet "Cache-Control" "max-age=31536000, public, immutable"])
    ++ (if String.eqb (Method r) MethodGet
        then [Copy (if acceptsBrotli then BrotliReader f else Reader f)]
        else []).

(** The second half of [ServeHTTP], once [name] and [context] are known. *)
Definition serve_asset (env : Env) (r : Request) (name context : string)
    : list call :=
  match ExtractAssetID name with
  | None => [Panic]
  | Some (name, id) =>
      let name :=
        match name with
        | String c _ => if negb (Ascii.eqb c "/") then "/" +:+ name else name
        | "" => name
        end in
      AssetsGet name context ::
      match assets_Get env name context with
      | None => [HttpError "File not found" StatusNotFound]
      | Some f =>
          let checkETag := String.eqb id "" in
          ServeFile env r f checkETag
      end
  end.

Definition ServeHTTP (env : Env) (r : Request) : list call :=
  if negb (String.eqb (Method r) MethodGet)
     && negb (String.eqb (Method r) MethodHead)
  then [WriteHeader StatusMethodNotAllowed]
  else if HasPrefix (URL_Path r) (assetsExtPrefix +:+ "/") then
    let nameWithContext := TrimPrefix (URL_Path r) (assetsExtPrefix +:+ "/") in
    match SplitN2 nameWithContext "/" with
    | [context; name] => serve_asset env r name context
    | _ => [HttpError "File not found" StatusNotFound]
    end
  else
    let name := TrimPrefix (URL_Path r) assetsPrefix in
    let context :=
      match lifecycle_GetInstance env (Host r) with
      | Some contextName => contextName
      | None => ""
      end in
    GetInstance (Host r) :: serve_asset env r name context.

(** ** The helpers of the templates *)

Definition fileExtension (filename : string) : string := GoPath.Ext filename.

Definition basename (filename : string) : string :=
  let ext := fileExtension filename in
  TrimSuffix filename ext.

(** The calls that consult a package and send nothing. *)
Definition is_lookup (c : call) : bool :=
  match c with
  | GetInstance _ | AssetsGet _ _ => true
  | _ => false
  end.

(** ** What [ExtractAssetID] is meant to compute *)

(** An asset identifier: the word [immutable], or at least ten hexadecimal
    digits. *)
Definition hex_digits : string := "0123456789abcdefABCDEF".

Definition is_asset_id (s : string) : Prop :=
  s = "immutable"
  \/ (10 <= len s
      /\ forall c, In c (list_ascii_of_string s) ->
                   In c (list_ascii_of_string hex_digits)).

(** The path [file] with its last element replaced by [short], the way
    [ExtractAssetID] builds it: with [path.Join] on [path.Dir], except in
    the directory [.]. *)
Definition rejoin (file short : string) : string :=
  if String.eqb (GoPath.Dir file) "." then short
  else GoPath.Join [GoPath.Dir file; short].

(** [strings.Split(s, sep)] for a one-byte separator: the segments of [s]
    between the separators. *)
Fixpoint split_byte (sep : ascii) (s : string) : list string :=
  match s with
  | "" => [""]
  | String c s' =>
      if Ascii.eqb c sep then "" :: split_byte sep s'
      else match split_byte sep s' with
           | seg :: segs => String c seg :: segs
           | [] => [String c ""]
           end
  end.

(** The dot-separated segments of a base name. *)
Definition dot_segments (s : string) : list string := split_byte "." s.

(** A string without the spaces around it. *)
Fixpoint trim_left (s : string) : string :=
  match s with
  | String " " s' => trim_left s'
  | _ => s
  end.

Fixpoint trim_right (s : string) : string :=
  match s with
  | "" => ""
  | String c s' =>
      let t := trim_right s' in
      if String.eqb t "" && Ascii.eqb c " " then "" else String c t
  end.

(** A function to stand for [utils.SplitTrimString] in examples: the
    fields between the separators (the first byte of [sep]), trimmed, the
    empty ones left out. *)
Definition split_trim (s sep : string) : list string :=
  match sep with
  | "" => [s]
  | String c _ =>
      filter (fun f => f <> "") (map (fun f => trim_left (trim_right f))
                                     (split_byte c s))
  end.

End Statik.

(* ===================================================================== *)
(** * [model/permission/permissions.go] *)
(* ===================================================================== *)

Module Permission.

(** [consts.Files], the doctype of files (named in [checkSetPermissions]). *)
Definition consts_Files : string := "io.cozy.files".

(** ** Verbs, rules and sets

    [verbs.go], [rule.go] and [set.go] of the package are not among the
    sources; the types and operations below are the ones
    [permissions.go] relies on. *)

(** Modelled from the spec: the verbs of [verbs.go], which is not among the
    sources: "one of a fixed small enumeration (read, create, update,
    delete, patch-equivalent)"; [permissions.go] names [GET]. *)
Inductive Verb := GET | POST | PUT | PATCH | DELETE.

#[global] Instance Verb_eq_dec : EqDecision Verb.
Proof. solve_decision. Defined.

Definition Verb_to_nat (v : Verb) : nat :=
  match v with GET => 0 | POST => 1 | PUT => 2 | PATCH => 3 | DELETE => 4 end.

Definition Verb_of_nat (n : nat) : Verb :=
  match n with
  | 0 => GET | 1 => POST | 2 => PUT | 3 => PATCH | _ => DELETE
  end%nat.

#[global] Instance Verb_countable : Countable Verb.
Proof.
  refine (inj_countable' Verb_to_nat Verb_of_nat _). by intros [].
Defined.

Definition all_verbs : list Verb := [GET; POST; PUT; PATCH; DELETE].

Abbreviation VerbSet := (gset Verb).

(** Modelled from the spec: the verb set of [verbs.go], which is not among
    the sources: "a set of Verbs with union/merge and subset test; the
    empty/absent set means all verbs in legacy documents and must be
    treated as no restriction rather than no access".  [VerbSet_Contains]
    is the verb-restriction check. *)
Definition VerbSet_Contains (vs : VerbSet) (v : Verb) : bool :=
  if decide (vs = ∅) then true else bool_decide (v ∈ vs).

(** Modelled from the spec: the subset test of [verbs.go]: every verb the
    set grants is granted by the parent. *)
Definition VerbSet_IsSubSetOf (vs parent : VerbSet) : bool :=
  forallb (fun v => implb (VerbSet_Contains vs v) (VerbSet_Contains parent v))
          all_verbs.

(** Modelled from the spec: the union of two verb sets ([verbs.go]). *)
Definition VerbSet_Merge (vs extra : VerbSet) : VerbSet := vs ∪ extra.

(** Modelled from the spec: the rule of [rule.go], which is not among the
    sources: "Title (unique key within a Set), Type: doctype-name, Verbs:
    VerbSet, Selector: optional field name, Values: ordered list of
    strings".  [Type_] is its field [Type]; an absent [Selector] is the
    empty string. *)
Record Rule := {
  Title : string;
  Type_ : string;
  Verbs : VerbSet;
  Selector : string;
  Values : list string;
}.

(** [Set], an ordered sequence of rules. *)
Abbreviation Set_ := (list Rule).

(** Modelled from the spec: [Rule.isSubsetOf] of [rule.go], which is not
    among the sources: "true iff same Type (with one exception: a file-type
    rule is always accepted against a parent regardless of the parent's own
    type), Verbs included in parent.Verbs, and (parent.Values is empty, or
    every element of Values appears in parent.Values) and
    Selector-compatibility (equal selectors, or parent has no selector)". *)
Definition Rule_isSubsetOf (r parent : Rule) : bool :=
  (String.eqb (Type_ r) (Type_ parent) || String.eqb (Type_ r) consts_Files)
  && VerbSet_IsSubSetOf (Verbs r) (Verbs parent)
  && (bool_decide (Values parent = [])
      || forallb (fun v => bool_decide (v ∈ Values parent)) (Values r))
  && (String.eqb (Selector r) (Selector parent)
      || String.eqb (Selector parent) "").

(** Modelled from the spec: [Set.IsSubSetOf] of [set.go], which is not
    among the sources: "every Rule in the set is a subset of some rule in
    parentSet with a matching Title, OR (for the file-type exception) any
    rule in parentSet". *)
Definition Set_IsSubSetOf (s parentSet : Set_) : bool :=
  forallb
    (fun r =>
       existsb
         (fun parent =>
            (String.eqb (Title r) (Title parent)
             || String.eqb (Type_ r) consts_Files)
            && Rule_isSubsetOf r parent)
         parentSet)
    s.

(** Modelled from the spec: the union of two value lists "(dedup)": the
    values of [extra] that are not there yet are appended. *)
Definition add_value (values : list string) (v : string) : list string :=
  if bool_decide (v ∈ values) then values else values ++ [v].

(** Modelled from the spec: the same, for every value of [extra] in turn. *)
Definition union_values (values extra : list string) : list string :=
  foldl add_value values extra.

(** Modelled from the spec: [Rule.Merge] of [rule.go], which is not among
    the sources: "union their Verbs and Values (dedup)"; the receiver keeps
    its title, type and selector.  The spec names no case in which the
    merge fails. *)
Definition Rule_Merge (r r2 : Rule) : option Rule :=
  Some {| Title := Title r;
          Type_ := Type_ r;
          Verbs := VerbSet_Merge (Verbs r) (Verbs r2);
          Selector := Selector r;
          Values := union_values (Values r) (Values r2) |}.

(** ** [MergeExtraPermissions]

    [rule.Merge] is a parameter: [Some] merged rule, or [None] for an
    error.  The function itself never returns an error. *)
Section Merge.
Variable Merge : Rule -> Rule -> option Rule.

(** The first loop: the rules of [extraPermissions] whose title is not in
    [perms], appended to [permissions]. *)
Fixpoint append_new (perms extraPermissions permissions : Set_) : Set_ :=
  match extraPermissions with
  | [] => permissions
  | ep :: rest =>
      let found := existsb (fun p => String.eqb (Title ep) (Title p)) perms in
      append_new perms rest
        (if negb found then permissions ++ [ep] else permissions)
  end.

(** The inner loop of the second one: the first same-titled rule of
    [extraPermissions] that merges with [rule]. *)
Fixpoint merge_first (rule : Rule) (extraPermissions : Set_) : option Rule :=
  match extraPermissions with
  | [] => None
  | newRule :: rest =>
      if String.eqb (Title rule) (Title newRule) then
        match Merge rule newRule with
        | None => merge_first rule rest            (* [continue] *)
        | Some mergedRule => Some mergedRule       (* [break] *)
        end
      else merge_first rule rest
  end.

(** The second loop. *)
Fixpoint merge_existing (perms extraPermissions permissions : Set_) : Set_ :=
  match perms with
  | [] => permissions
  | rule :: rest =>
      merge_existing rest extraPermissions
        (permissions ++ [match merge_first rule extraPermissions with
                         | Some mergedRule => mergedRule
                         | None => rule
                         end])
  end.

Definition MergeExtraPermissions (perms extraPermissions : Set_) : Set_ :=
  let permissions := append_new perms extraPermissions [] in
  merge_existing perms extraPermissions permissions.
End Merge.

(** Two rules with the same content: the same title, type, verbs and
    selector, and the same values in any order. *)
Definition Rule_equiv (r r' : Rule) : Prop :=
  Title r = Title r' /\ Type_ r = Type_ r' /\ Verbs r = Verbs r'
  /\ Selector r = Selector r' /\ (forall v, v ∈ Values r <-> v ∈ Values r').

(** Two sets with the same rules up to content, in any order. *)
Definition Set_equiv (s s' : Set_) : Prop :=
  (forall r, r ∈ s -> exists r', r' ∈ s' /\ Rule_equiv r r')
  /\ (forall r', r' ∈ s' -> exists r, r ∈ s /\ Rule_equiv r r').

(** ** The permission document *)

(** [Permission], with [PermType] for its field [Type]; [Client] and
    [Metadata] are left out.  A [nil] map of codes behaves as the empty one
    everywhere; a [nil] map of short codes is [None]. *)
Record Permission := {
  PID : string;
  PRev : string;
  PermType : string;
  SourceID : string;
  Permissions : Set_;
  ExpiresAt : option string;
  Codes : gmap string string;
  ShortCodes : option (gmap string string);
  Password : option string;
}.

(** The two nested loops of [PatchCodes].  Go ranges over a map in no fixed
    order; here the order is the one of [map_to_list], and the result does
    not depend on it. *)
Definition patch_shortcodes (codes shortcodes : gmap string string)
    : gmap string string :=
  foldl
    (fun updatedShortcodes codeName =>
       foldl
         (fun updatedShortcodes '(shortcodeName, v) =>
            if decide (shortcodeName = codeName)
            then <[shortcodeName := v]> updatedShortcodes
            else updatedShortcodes)
         updatedShortcodes (map_to_list shortcodes))
    ∅ (map_to_list codes).*1.

Definition PatchCodes (p : Permission) (codes : gmap string string)
    : Permission :=
  {| PID := PID p; PRev := PRev p; PermType := PermType p;
     SourceID := SourceID p; Permissions := Permissions p;
     ExpiresAt := ExpiresAt p;
     Codes := codes;
     ShortCodes :=
       match ShortCodes p with
       | None => None
       | Some shortcodes => Some (patch_shortcodes codes shortcodes)
       end;
     Password := Password p |}.

(** The names that have a short code. *)
Definition shortcode_names (p : Permission) : gset string :=
  match ShortCodes p with
  | None => ∅
  | Some shortcodes => dom shortcodes
  end.

(** ** The rest of [permissions.go] *)

Definition TypeRegister : string := "register".
Definition TypeWebapp : string := "app".
Definition TypeKonnector : string := "konnector".
Definition TypeOauth : string := "oauth".
Definition TypeCLI : string := "cli".
Definition TypeShareByLink : string := "share".
Definition TypeSharePreview : string := "share-preview".
Definition TypeShareInteract : string := "share-interact".

Definition set_Permissions (p : Permission) (rules : Set_) : Permission :=
  {| PID := PID p; PRev := PRev p; PermType := PermType p;
     SourceID := SourceID p; Permissions := rules; ExpiresAt := ExpiresAt p;
     Codes := Codes p; ShortCodes := ShortCodes p; Password := Password p |}.

(** [p.AddRules(rules...)] *)
Definition AddRules (p : Permission) (rules : list Rule) : Permission :=
  set_Permissions p (Permissions p ++ rules).

(** The loop of [RemoveRule]: the rules kept so far are [newperms]. *)
Fixpoint remove_loop (rule : Rule) (perms newperms : Set_) : Set_ :=
  match perms with
  | [] => newperms
  | r :: rest =>
      remove_loop rule rest
        (if negb (String.eqb (Title r) (Title rule)) then newperms ++ [r]
         else newperms)
  end.

(** [p.RemoveRule(rule)] *)
Definition RemoveRule (p : Permission) (rule : Rule) : Permission :=
  set_Permissions p (remove_loop rule (Permissions p) []).

(** What the functions below return instead of a document. *)
Inductive failure :=
  | ErrExpiredToken
  | ErrOnlyAppCanCreateSubSet
  | ErrNotSubset
  | NotFound               (* the [couchdb.Error] "not_found" *)
  | Forbidden              (* [echo.NewHTTPError(http.StatusForbidden, _)] *)
  | BadRequest             (* [echo.NewHTTPError(http.StatusBadRequest, _)] *)
  | NoToken                (* "Cannot find token for shortcode" *)
  | NotWritable (doctype : string)  (* the error of [CheckWritable] *)
  | CalleeError.           (* an error of the database or of [json] *)

(** A row of a [couchdb.ViewResponse]: its key and value, and its document
    as [json.Unmarshal] reads it ([None] when it fails). *)
Record ViewRow := {
  Row_Key : string;
  Row_Value : string;
  Row_Doc : option Permission;
}.

(** The calls of [getFromSource] to the outside. *)
Inductive source_call :=
  | FindDocs
  | Sleep (seconds : Z).

Section Read.
(* [time.Parse(time.RFC3339, s)]: the time, [None] for an error *)
Variable time_Parse_RFC3339 : string -> option Z.
(* [time.Now()] *)
Variable now : Z.

(** [p.Expired()].  The record holds [nil] or a string as [ExpiresAt]; a
    value of another type counts as expired in the source. *)
Definition Expired (p : Permission) : bool :=
  match ExpiresAt p with
  | None => false
  | Some expiresAt =>
      if negb (String.eqb expiresAt "") then
        match time_Parse_RFC3339 expiresAt with
        | Some at_ => at_ <? now
        | None => true
        end
      else true
  end.

(** [GetByID]; [doc] is the answer of [couchdb.GetDoc], [None] for an
    error. *)
Definition GetByID (doc : option Permission) : Permission + failure :=
  match doc with
  | None => inr CalleeError
  | Some perm => if Expired perm then inr ErrExpiredToken else inl perm
  end.

(** [getFromSource]; [first] and [second] are the answers of the first and
    of the second [couchdb.FindDocs], [None] for an error. *)
Definition getFromSource (first second : option (list Permission))
    : (Permission + failure) * list source_call :=
  let finish (res : list Permission) : Permission + failure :=
    match res with
    | [] => inr NotFound
    | perm :: _ => if Expired perm then inr ErrExpiredToken else inl perm
    end in
  match first with
  | Some res => (finish res, [FindDocs])
  | None =>
      match second with
      | Some res => (finish res, [FindDocs; Sleep 1; FindDocs])
      | None => (inr CalleeError, [FindDocs; Sleep 1; FindDocs])
      end
  end.

(* [build.IsDevRelease()] *)
Variable IsDevRelease : bool.
(* [consts.Sharings] *)
Variable consts_Sharings : string.
(* [couchdb.GetDoc(db, doctype, id, &doc)], [true] for [err == nil] *)
Variable docExists : string -> string -> bool.

(** [GetForShareCode]; [view] is the answer of [couchdb.ExecView], [None]
    for an error. *)
Definition GetForShareCode (view : option (list ViewRow))
    : Permission + failure :=
  match view with
  | None => inr CalleeError
  | Some [] => inr Forbidden
  | Some (_ :: _ :: _) => inr BadRequest
  | Some [row] =>
      match Row_Doc row with
      | None => inr CalleeError
      | Some perm =>
          if Expired perm then inr ErrExpiredToken
          else if negb IsDevRelease then
            match GoStrings.SplitN2 (SourceID perm) "/" with
            | [part0; part1] =>
                let docID :=
                  if String.eqb part0 consts_Sharings then part1
                  else part0 +:+ "/" +:+ part1 in
                if docExists part0 docID then inl perm
                else inr ErrExpiredToken
            | _ => inl perm
            end
          else inl perm
      end
  end.

(** The loop of [GetTokenAndPermissionsFromShortcode] over the codes, in
    the order of [map_to_list]. *)
Fixpoint find_code (value : string) (codes : list (string * string))
    : option string :=
  match codes with
  | [] => None
  | (mail, code) :: rest =>
      if String.eqb mail value then Some code else find_code value rest
  end.

(** [GetTokenAndPermissionsFromShortcode] *)
Definition GetTokenAndPermissionsFromShortcode (view : option (list ViewRow))
    : (string * Permission) + failure :=
  match view with
  | None => inr CalleeError
  | Some [] => inr Forbidden
  | Some (_ :: _ :: _) => inr BadRequest
  | Some [row] =>
      match Row_Doc row with
      | None => inr CalleeError
      | Some perm =>
          match find_code (Row_Value row) (map_to_list (Codes perm)) with
          | Some code => inl (code, perm)
          | None => inr NoToken
          end
      end
  end.

(** [GetTokenFromShortcode] *)
Definition GetTokenFromShortcode (view : option (list ViewRow))
    : string + failure :=
  match GetTokenAndPermissionsFromShortcode view with
  | inl (token, _) => inl token
  | inr err => inr err
  end.
End Read.

(** [checkSetPermissions]: [None] for [nil].  [Set.IsSubSetOf],
    [MatchType] and [CheckWritable] are in files that are not among the
    sources: parameters. *)
Section Check.
Variable IsSubSetOf : Set_ -> Set_ -> bool.
Variable MatchType : Rule -> string -> bool.
(* [true] for [err == nil] *)
Variable CheckWritable : string -> bool.

Fixpoint check_writable (set : Set_) : option failure :=
  match set with
  | [] => None
  | rule :: rest =>
      if MatchType rule consts_Files then check_writable rest
      else if negb (CheckWritable (Type_ rule)) then Some (NotWritable (Type_ rule))
      else check_writable rest
  end.

Definition checkSetPermissions (set : Set_) (parent : Permission)
    : option failure :=
  if negb (String.eqb (PermType parent) TypeWebapp)
     && negb (String.eqb (PermType parent) TypeKonnector)
     && negb (String.eqb (PermType parent) TypeOauth)
     && negb (String.eqb (PermType parent) TypeCLI)
  then Some ErrOnlyAppCanCreateSubSet
  else if negb (IsSubSetOf set (Permissions parent)) then Some ErrNotSubset
  else check_writable set.

(** [p.CanUpdateShareByLink(child)] *)
Definition CanUpdateShareByLink (p child : Permission) : bool :=
  if negb (String.eqb (PermType child) TypeShareByLink) then false
  else if negb (String.eqb (PermType p) TypeWebapp)
          && negb (String.eqb (PermType p) TypeOauth) then false
  else String.eqb (SourceID child) (SourceID p)
       || IsSubSetOf (Permissions child) (Permissions p).
End Check.

End Permission.

(* ===================================================================== *)
(** * [model/session/session.go] *)
(* ===================================================================== *)

Module Session.

(** [time.Duration] and [time.Time] count nanoseconds. *)
Definition Hour : Z := 3600 * 1000000000.

(** [SessionMaxAge] *)
Definition SessionMaxAge : Z := 30 * 24 * Hour.

Inductive error :=
  | ErrNoCookie
  | ErrExpired
  | ErrInvalidID
  | ErrCouch.       (* any other error of the database *)

(** [Session]; the [instance] pointer is left out, every function below
    works on one instance. *)
Record Session := {
  DocID : string;
  DocRev : string;
  CreatedAt : Z;
  LastSeen : Z;
  LongRun : bool;
  ShortRun : bool;
  SID : string;
}.

Definition set_LastSeen (s : Session) (t : Z) : Session :=
  {| DocID := DocID s; DocRev := DocRev s; CreatedAt := CreatedAt s;
     LastSeen := t; LongRun := LongRun s; ShortRun := ShortRun s;
     SID := SID s |}.

(** [s.SetRev(v)] *)
Definition SetRev (s : Session) (v : string) : Session :=
  {| DocID := DocID s; DocRev := v; CreatedAt := CreatedAt s;
     LastSeen := LastSeen s; LongRun := LongRun s; ShortRun := ShortRun s;
     SID := SID s |}.

(** What a call does to the outside, in order: the use of the lock, the
    log lines, and the requests to the database. *)
Inductive event :=
  | Lock (name : string)
  | Unlock (name : string)
  | Warnf (namespace msg : string)
  | Infof (namespace msg : string)
  | Errorf (namespace msg : string)
  | GetDoc (id : string)                (* [couchdb.GetDoc] *)
  | CreateDoc                           (* [couchdb.CreateDoc] *)
  | UpdateDoc (id : string)             (* [couchdb.UpdateDoc] *)
  | DeleteDoc (id : string)             (* [couchdb.DeleteDoc] *)
  | ForeachDocs                         (* [couchdb.ForeachDocs] *)
  | GetAllDocs                          (* [couchdb.GetAllDocs] *)
  | BulkDeleteDocs (ids : list string). (* [couchdb.BulkDeleteDocs] *)

(** Modelled from the spec: the world a call runs in.  [pkg/couchdb], the
    clock and the lock are outside the sources ("a remote document store
    providing per-tenant collections with create/read/update/delete", "a
    distributed advisory lock keyed by tenant and resource name").  The
    database is the map [docs] of the sessions doctype of the instance;
    its [n]-th request fails (with an error other than not-found) when
    [faults n] says so, and [revs n] is the revision it gives to the
    document that its [n]-th request updates; the [n]-th reading of the
    clock is [clock n]; the requests to the database, the use of the lock
    and the log lines go to [trace], in the order in which they are
    made. *)
Record World := {
  docs : gmap string Session;
  faults : nat -> bool;
  revs : nat -> string;
  requests : nat;
  clock : nat -> Z;
  readings : nat;
  trace : list event;
}.

(** Programs that read and change the world. *)
Definition M (A : Type) : Type := World -> A * World.

Definition ret {A} (a : A) : M A := fun w => (a, w).

Definition bind {A B} (m : M A) (k : A -> M B) : M B :=
  fun w => let (a, w') := m w in k a w'.

Notation "'let*' x ':=' m 'in' k" := (bind m (fun x => k))
  (at level 10, x name, m at level 100, k at level 200).
Notation "m ';;' k" := (bind m (fun _ => k))
  (at level 100, k at level 200, right associativity).

(** [time.Now()] *)
Definition time_Now : M Z := fun w =>
  (clock w (readings w),
   {| docs := docs w; faults := faults w; revs := revs w;
      requests := requests w;
      clock := clock w; readings := S (readings w); trace := trace w |}).

Definition emit (e : event) : M unit := fun w =>
  (tt,
   {| docs := docs w; faults := faults w; revs := revs w;
      requests := requests w;
      clock := clock w; readings := readings w; trace := trace w ++ [e] |}).

(** A request to the database: it goes to the trace; whether it fails,
    and one more request made. *)
Definition request (e : event) : M bool := fun w =>
  (faults w (requests w),
   {| docs := docs w; faults := faults w; revs := revs w;
      requests := S (requests w); clock := clock w; readings := readings w;
      trace := trace w ++ [e] |}).

Definition get_docs : M (gmap string Session) := fun w => (docs w, w).

Definition put_docs (d : gmap string Session) : M unit := fun w =>
  (tt,
   {| docs := d; faults := faults w; revs := revs w; requests := requests w;
      clock := clock w; readings := readings w; trace := trace w |}).

(** Modelled from the spec: the outcome of [couchdb.GetDoc] ("fetch by
    ID"): the document, not-found, or another error. *)
Inductive fetched :=
  | Found (s : Session)
  | NotFound                 (* [couchdb.IsNotFoundError(err)] *)
  | Failed.                  (* any other error *)

(** Modelled from the spec: [couchdb.GetDoc], one request to the
    database. *)
Definition couchdb_GetDoc (id : string) : M fetched :=
  let* failed := request (GetDoc id) in
  if failed : bool then ret Failed
  else
    let* d := get_docs in
    match d !! id with
    | Some s => ret (Found s)
    | None => ret NotFound
    end.

(** Modelled from the spec: [couchdb.DeleteDoc], which may fail
    ("deletion failure is logged, not escalated"); [true] for
    [err != nil]. *)
Definition couchdb_DeleteDoc (s : Session) : M bool :=
  let* failed := request (DeleteDoc (DocID s)) in
  if failed : bool then ret true
  else
    let* d := get_docs in
    match d !! DocID s with
    | Some _ => put_docs (delete (DocID s) d) ;; ret false
    | None => ret true
    end.

(** Modelled from the spec: [couchdb.UpdateDoc], which may fail ("on
    update failure, roll back the in-memory field").  The store keeps a
    revision for each document ("{ID, Revision, ...}"): an update that
    succeeds gives the document a new one, which is stored and set on the
    document in memory with [SetRev].  The result is the document as the
    call leaves it in memory, [None] for [err != nil]. *)
Definition couchdb_UpdateDoc (s : Session) : M (option Session) :=
  fun w =>
    let rev := revs w (requests w) in
    (let* failed := request (UpdateDoc (DocID s)) in
     if failed : bool then ret None
     else
       let* d := get_docs in
       match d !! DocID s with
       | Some _ =>
           let s := SetRev s rev in
           put_docs (<[DocID s := s]> d) ;; ret (Some s)
       | None => ret None
       end) w.

(** [s.OlderThan(t)]: [time.Now().After(s.LastSeen.Add(t))] *)
Definition OlderThan (s : Session) (t : Z) : M bool :=
  let* now := time_Now in ret (LastSeen s + t <? now).

(** [lockSession]: takes the lock named ["sessions/" + sessionID]; the
    function it returns, deferred by [Get], is [Unlock]. *)
Definition lockSession (sessionID : string) : M unit :=
  emit (Lock ("sessions/" +:+ sessionID)).

Definition unlockSession (sessionID : string) : M unit :=
  emit (Unlock ("sessions/" +:+ sessionID)).

(** [Get]: the session, or the error. *)
Definition Get (sessionID : string) : M (Session + error) :=
  let* r := couchdb_GetDoc sessionID in
  match r with
  | NotFound => ret (inr ErrInvalidID)
  | Failed => ret (inr ErrCouch)
  | Found s =>
      let* expired := OlderThan s SessionMaxAge in
      if expired : bool then
        lockSession sessionID ;;
        let* err := couchdb_DeleteDoc s in
        (if err : bool
         then emit (Warnf "loginaudit" "Failed to delete expired session")
         else emit (Infof "loginaudit" ("Expired session deleted: " +:+ DocID s))) ;;
        unlockSession sessionID ;;
        ret (inr ErrExpired)
      else
        let* stale := OlderThan s (24 * Hour) in
        if stale : bool then
          lockSession sessionID ;;
          let lastSeen := LastSeen s in
          let* now := time_Now in
          let s := set_LastSeen s now in
          let* updated := couchdb_UpdateDoc s in
          let s := match updated with
                   | Some s => s
                   | None => set_LastSeen s lastSeen
                   end in
          unlockSession sessionID ;;
          ret (inl s)
        else ret (inl s)
  end.

(** ** The rest of [session.go] *)

(** The store is keyed by the identifiers of its documents. *)
Definition well_keyed (d : gmap string Session) : Prop :=
  forall k s, d !! k = Some s -> DocID s = k.

(** [Duration], with its constants [ShortRun], [NormalRun] and [LongRun]
    (the fields of [Session] have the names of two of them). *)
Inductive Duration := DurationShortRun | DurationNormalRun | DurationLongRun.

Definition Duration_eqb (a b : Duration) : bool :=
  match a, b with
  | DurationShortRun, DurationShortRun
  | DurationNormalRun, DurationNormalRun
  | DurationLongRun, DurationLongRun => true
  | _, _ => false
  end.

(** [s.Duration()] *)
Definition Session_Duration (s : Session) : Duration :=
  if LongRun s then DurationLongRun
  else if ShortRun s then DurationShortRun
  else DurationNormalRun.

(** ** [New]

    The identifier and the revision that the database gives to a new
    document are parameters: [uuid n] when the document is created by the
    [n]-th request. *)
Section Create.
Variable uuid : nat -> string.
Variable rev : string.

(** Modelled from the spec: [couchdb.CreateDoc] ("create"): one request,
    which may fail; the document is stored under a new identifier, which is
    set on it with its revision.  [None] for [err != nil]. *)
Definition couchdb_CreateDoc (s : Session) : M (option Session) :=
  fun w =>
    let id := uuid (requests w) in
    (let* failed := request CreateDoc in
     if failed : bool then ret None
     else
       let* d := get_docs in
       match d !! id with
       | Some _ => ret None
       | None =>
           let s :=
             {| DocID := id; DocRev := rev; CreatedAt := CreatedAt s;
                LastSeen := LastSeen s; LongRun := LongRun s;
                ShortRun := ShortRun s; SID := SID s |} in
           put_docs (<[id := s]> d) ;; ret (Some s)
       end) w.

(** [New]: the session, or [None] for the error of the database. *)
Definition New (duration : Duration) (sid : string) : M (option Session) :=
  let* now := time_Now in
  let s :=
    {| DocID := ""; DocRev := ""; CreatedAt := now; LastSeen := now;
       LongRun := Duration_eqb duration DurationLongRun;
       ShortRun := Duration_eqb duration DurationShortRun;
       SID := sid |} in
  couchdb_CreateDoc s.
End Create.

(** ** Cookies *)

(** [defaultCookieName] *)
Definition defaultCookieName : string := "cozysessid".

(** The methods of [instance.Instance] that the package calls. *)
Record Instance := {
  DBPrefix : string;
  ContextualDomain : string;
  SessionSecret : string;
}.

(** The fields of [http.Cookie] that the package sets. *)
Record Cookie := {
  Name : string;
  Value : string;
  MaxAge : Z;
  Path : string;
  Domain : string;
  Secure : bool;
  HttpOnly : bool;
  SameSiteLax : bool;       (* [SameSite: http.SameSiteLaxMode] *)
}.

(** [crypto.MACConfig], as far as it is filled in. *)
Record MACConfig := {
  MAC_Name : string;
  MAC_MaxLen : Z;
}.

(** An error of [FromCookie]: one of the package, or the one that
    [crypto.DecodeAuthMessage] returned. *)
Inductive cookie_error :=
  | SessionError (e : error)
  | DecodeError.

(** The configuration, [utils.CookieDomain] and the two functions of
    [pkg/crypto] are outside the sources: parameters. *)
Section Cookies.
(* [config.GetConfig().Subdomains == config.FlatSubdomains] *)
Variable FlatSubdomains : bool.
(* [build.IsDevRelease()] *)
Variable IsDevRelease : bool.
Variable utils_CookieDomain : string -> string.
(* [None] for [err != nil]; the last argument of both is [nil] *)
Variable EncodeAuthMessage : MACConfig -> string -> string -> option string.
Variable DecodeAuthMessage : MACConfig -> string -> string -> option string.

Definition CookieName (i : Instance) : string :=
  if FlatSubdomains then "sess-" +:+ DBPrefix i else defaultCookieName.

Definition CookieDomain (i : Instance) : string :=
  let domain := ContextualDomain i in
  let domain :=
    if FlatSubdomains then
      match GoStrings.SplitN2 domain "." with
      | _ :: part1 :: _ => part1
      | _ => domain
      end
    else domain in
  utils_CookieDomain ("." +:+ domain).

Definition cookieSessionMACConfig (i : Instance) : MACConfig :=
  {| MAC_Name := CookieName i; MAC_MaxLen := 256 |}.

(** [s.ToCookie()], for a session of the instance [inst]. *)
Definition ToCookie (inst : Instance) (s : Session) : option Cookie :=
  encoded ← EncodeAuthMessage (cookieSessionMACConfig inst)
              (SessionSecret inst) (DocID s);
  let maxAge :=
    if LongRun s then 10 * 365 * 24 * 3600
    else if ShortRun s then 5 * 60
    else 0 in
  Some {| Name := CookieName inst; Value := encoded; MaxAge := maxAge;
          Path := "/"; Domain := CookieDomain inst;
          Secure := negb IsDevRelease; HttpOnly := true;
          SameSiteLax := true |}.

(** [FromCookie]: [cookie name] is the value of the cookie of the request
    with that name, [None] when [c.Cookie] returns an error. *)
Definition FromCookie (cookie : string -> option string) (i : Instance)
    : M (Session + cookie_error) :=
  match cookie (CookieName i) with
  | None => ret (inr (SessionError ErrNoCookie))
  | Some value =>
      if String.eqb value "" then ret (inr (SessionError ErrNoCookie))
      else
        match DecodeAuthMessage (cookieSessionMACConfig i) (SessionSecret i)
                value with
        | None => ret (inr DecodeError)
        | Some sessionID =>
            let* r := Get sessionID in
            match r with
            | inl s => ret (inl s)
            | inr e => ret (inr (SessionError e))
            end
        end
  end.

(** [s.Delete(i)] *)
Definition Delete (s : Session) (i : Instance) : M Cookie :=
  let* err := couchdb_DeleteDoc s in
  (if err : bool then emit (Errorf "loginaudit" "Failed to delete session")
   else emit (Infof "loginaudit" ("Session deleted: " +:+ DocID s))) ;;
  ret {| Name := CookieName i; Value := ""; MaxAge := -1; Path := "/";
         Domain := CookieDomain i; Secure := false; HttpOnly := false;
         SameSiteLax := false |}.

(** Modelled from the spec: [couchdb.ForeachDocs] ("enumerate all
    sessions"): one request, which may fail; the documents of the doctype,
    in the order of [map_to_list]. *)
Definition couchdb_ForeachDocs : M (option (list Session)) :=
  let* failed := request ForeachDocs in
  if failed : bool then ret None
  else let* d := get_docs in ret (Some (map_to_list d).*2).

(** A [for] loop over sessions. *)
Fixpoint for_each (l : list Session) (body : Session -> M unit) : M unit :=
  match l with
  | [] => ret tt
  | s :: l' => body s ;; for_each l' body
  end.

(** [DeleteOthers]: [true] for [err != nil]. *)
Definition DeleteOthers (i : Instance) (selfSessionID : string) : M bool :=
  let* r := couchdb_ForeachDocs in
  match r with
  | None => ret true
  | Some sessions =>
      for_each sessions
        (fun s =>
           if negb (String.eqb (DocID s) selfSessionID)
           then Delete s i ;; ret tt
           else ret tt) ;;
      ret false
  end.

(** [DeleteBySID]: [true] for [err != nil]. *)
Definition DeleteBySID (inst : Instance) (sid : string) : M bool :=
  let* r := couchdb_ForeachDocs in
  match r with
  | None => ret true
  | Some sessions =>
      for_each sessions
        (fun s =>
           if String.eqb (SID s) sid then Delete s inst ;; ret tt
           else ret tt) ;;
      ret false
  end.
End Cookies.

(** ** [GetAll] *)

(** Modelled from the spec: [couchdb.GetAllDocs] with a limit
    ("bulk-fetch up to 50,000 sessions"): one request, which may fail. *)
Definition couchdb_GetAllDocs (limit : nat) : M (option (list Session)) :=
  let* failed := request GetAllDocs in
  if failed : bool then ret None
  else let* d := get_docs in ret (Some (take limit (map_to_list d).*2)).

(** Modelled from the spec: [couchdb.BulkDeleteDocs] ("bulk-delete the
    expired partition (best-effort; failures logged only)"): one request,
    which deletes the documents or fails; [true] for [err != nil]. *)
Definition couchdb_BulkDeleteDocs (l : list Session) : M bool :=
  let* failed := request (BulkDeleteDocs (DocID <$> l)) in
  if failed : bool then ret true
  else
    let* d := get_docs in
    put_docs (foldr (fun s d => delete (DocID s) d) d l) ;; ret false.

(** The loop of [GetAll]: the sessions kept and the expired ones. *)
Fixpoint partition_sessions (sessions kept expired : list Session)
    : M (list Session * list Session) :=
  match sessions with
  | [] => ret (kept, expired)
  | sess :: rest =>
      let* old := OlderThan sess SessionMaxAge in
      if old : bool then partition_sessions rest kept (expired ++ [sess])
      else partition_sessions rest (kept ++ [sess]) expired
  end.

(** [GetAll]: the sessions, or [None] for the error of the database. *)
Definition GetAll : M (option (list Session)) :=
  let* r := couchdb_GetAllDocs (Z.to_nat 50000) in
  match r with
  | None => ret None
  | Some sessions =>
      let* parts := partition_sessions sessions [] [] in
      let (kept, expired) := parts : list Session * list Session in
      (match expired with
       | [] => ret tt
       | _ =>
           let* err := couchdb_BulkDeleteDocs expired in
           if err : bool
           then emit (Infof "sessions" "Error while deleting expired sessions")
           else ret tt
       end) ;;
      ret (Some kept)
  end.

End Session.

(* ===================================================================== *)
(** * Facts about byte strings *)
(* ===================================================================== *)

Module GoStringsFacts.
Import GoStrings.

Lemma app_nil_l s : "" +:+ s = s.
Proof. reflexivity. Qed.

Lemma app_cons a s t : String a s +:+ t = String a (s +:+ t).
Proof. reflexivity. Qed.

Lemma app_nil_r s : s +:+ "" = s.
Proof. induction s as [|a s IH]; [done|]. by rewrite app_cons, IH. Qed.

Lemma app_assoc a b c : (a +:+ b) +:+ c = a +:+ (b +:+ c).
Proof.
  induction a as [|x a IH]; [done|]. by rewrite !app_cons, IH.
Qed.

Lemma length_app a b :
  String.length (a +:+ b) = (String.length a + String.length b)%nat.
Proof.
  induction a as [|x a IH]; [done|]. rewrite app_cons. simpl. by rewrite IH.
Qed.

Lemma len_app a b : len (a +:+ b) = len a + len b.
Proof. unfold len. rewrite length_app. lia. Qed.

Lemma len_nonneg s : 0 <= len s.
Proof. unfold len. lia. Qed.

Lemma len_cons a s : len (String a s) = len s + 1.
Proof. unfold len. simpl. lia. Qed.

Lemma len_zero s : len s = 0 -> s = "".
Proof. destruct s; [done|]. rewrite len_cons. pose proof (len_nonneg s). lia. Qed.

Lemma stake_app a b : stake (String.length a) (a +:+ b) = a.
Proof.
  induction a as [|x a IH]; [by destruct b|].
  rewrite app_cons. simpl. by rewrite IH.
Qed.

Lemma sdrop_app a b : sdrop (String.length a) (a +:+ b) = b.
Proof.
  induction a as [|x a IH]; [by destruct b|].
  rewrite app_cons. simpl. by rewrite IH.
Qed.

Lemma stake_all s : stake (String.length s) s = s.
Proof. rewrite <- (app_nil_r s) at 2. apply stake_app. Qed.

(** The middle of three pieces is the slice between their lengths. *)
Lemma slice_mid a b c :
  slice (a +:+ b +:+ c) (len a) (len a + len b) = Some b.
Proof.
  unfold slice. rewrite !len_app.
  pose proof (len_nonneg a). pose proof (len_nonneg b).
  pose proof (len_nonneg c).
  rewrite !(proj2 (Z.leb_le _ _)) by lia. simpl.
  f_equal. unfold len. rewrite Nat2Z.id.
  replace (Z.to_nat _) with (String.length b) by lia.
  by rewrite sdrop_app, stake_app.
Qed.

Lemma slice_prefix a b : slice (a +:+ b) 0 (len a) = Some a.
Proof.
  pose proof (slice_mid "" a b) as H. by rewrite !app_nil_l in H.
Qed.

Lemma slice_suffix a b : slice (a +:+ b) (len a) (len (a +:+ b)) = Some b.
Proof.
  pose proof (slice_mid a b "") as H. rewrite app_nil_r in H.
  by rewrite len_app.
Qed.

Lemma byte_free_nil c : byte_free c "".
Proof. intros [|x a] b; discriminate. Qed.

Lemma byte_free_cons c x s :
  byte_free c (String x s) <-> x <> c /\ byte_free c s.
Proof.
  split.
  - intros H. split.
    + intros ->. by apply (H "" s).
    + intros a b ->. by apply (H (String x a) b).
  - intros [Hx Hs] [|y a] b; rewrite ?app_nil_l, ?app_cons; intros [= ? ?].
    + by subst.
    + by eapply Hs.
Qed.

Lemma IndexByte_lower s c : -1 <= IndexByte s c.
Proof.
  induction s as [|a s IH]; simpl; [lia|].
  destruct (Ascii.eqb a c); [lia|]. destruct (Z.ltb_spec (IndexByte s c) 0); lia.
Qed.

Lemma IndexByte_free s c : IndexByte s c = -1 <-> byte_free c s.
Proof.
  induction s as [|a s IH]; simpl.
  - split; [intros _; apply byte_free_nil | done].
  - rewrite byte_free_cons. destruct (Ascii.eqb_spec a c) as [->|Hne].
    + split; [done | by intros [? _]].
    + pose proof (IndexByte_lower s c).
      destruct (Z.ltb_spec (IndexByte s c) 0).
      * split; [intros _; split; [done|apply IH; lia] | done].
      * split; [lia|]. intros [_ Hs%IH]. lia.
Qed.

Lemma IndexByte_found pre post c :
  byte_free c pre -> IndexByte (pre +:+ String c post) c = len pre.
Proof.
  induction pre as [|a pre IH]; intros Hfree.
  - rewrite app_nil_l. simpl. by rewrite Ascii.eqb_refl.
  - apply byte_free_cons in Hfree as [Hne Hfree].
    rewrite app_cons, len_cons. simpl.
    destruct (Ascii.eqb_spec a c); [done|]. rewrite (IH Hfree).
    pose proof (len_nonneg pre). destruct (Z.ltb_spec (len pre) 0); lia.
Qed.

Lemma IndexByte_split s c :
  IndexByte s c <> -1 ->
  exists pre post, s = pre +:+ String c post /\ byte_free c pre.
Proof.
  induction s as [|a s IH]; simpl; [done|].
  destruct (Ascii.eqb_spec a c) as [->|Hne].
  - intros _. exists "", s. split; [done | apply byte_free_nil].
  - destruct (Z.ltb_spec (IndexByte s c) 0) as [|Hge]; [done|]. intros _.
    destruct IH as (pre & post & -> & Hfree); [lia|].
    exists (String a pre), post. split; [done|]. by apply byte_free_cons.
Qed.

(** A string is cut at its first [c] in one way only. *)
Lemma split_unique c a b a' b' :
  byte_free c a -> byte_free c a' ->
  a +:+ String c b = a' +:+ String c b' -> a = a' /\ b = b'.
Proof.
  intros Ha Ha' Heq.
  assert (String.length a = String.length a') as Hlen.
  { pose proof (IndexByte_found a b c Ha) as H1.
    pose proof (IndexByte_found a' b' c Ha') as H2.
    rewrite Heq in H1. unfold len in *. lia. }
  split.
  - rewrite <- (stake_app a (String c b)), Heq, Hlen. apply stake_app.
  - pose proof (sdrop_app a (String c b)) as H1.
    rewrite Heq, Hlen, sdrop_app in H1. by injection H1.
Qed.

Lemma SplitN2_found label rest c :
  byte_free c label ->
  SplitN2 (label +:+ String c rest) c = [label; rest].
Proof.
  intros Hfree. unfold SplitN2.
  rewrite (IndexByte_found _ _ _ Hfree).
  pose proof (len_nonneg label) as Hlen.
  destruct (Z.ltb_spec (len label) 0); [lia|].
  unfold len in *. f_equal; [|f_equal].
  - rewrite Nat2Z.id. apply stake_app.
  - replace (Z.to_nat (Z.of_nat (String.length label) + 1))
      with (String.length (label +:+ String c "")).
    + rewrite <- (sdrop_app (label +:+ String c "") rest) at 2.
      by rewrite app_assoc.
    + rewrite length_app. simpl. lia.
Qed.

Lemma SplitN2_none s c :
  byte_free c s -> SplitN2 s c = [s].
Proof.
  intros Hfree%IndexByte_free. unfold SplitN2.
  by rewrite Hfree.
Qed.

Lemma snoc_split s n :
  String.length s = S n ->
  exists s0 c, s = s0 +:+ String c "" /\ String.length s0 = n.
Proof.
  revert n. induction s as [|a s IH]; intros n Hlen; [done|].
  destruct s as [|b s].
  - exists "", a. by injection Hlen as <-.
  - destruct n as [|n]; [done|]. injection Hlen as Hlen.
    destruct (IH n) as (s0 & c & -> & Hlen0); [by rewrite <- Hlen|].
    exists (String a s0), c. split; [done|]. simpl. by rewrite Hlen0.
Qed.

Lemma get_app pre c rest :
  String.get (String.length pre) (pre +:+ String c rest) = Some c.
Proof. induction pre as [|a pre IH]; [done|]. by rewrite app_cons. Qed.

Lemma TrimSuffix_app pre suffix : TrimSuffix (pre +:+ suffix) suffix = pre.
Proof.
  unfold TrimSuffix, HasSuffix. rewrite length_app.
  replace (String.length pre + String.length suffix - String.length suffix)%nat
    with (String.length pre) by lia.
  rewrite sdrop_app, String.eqb_refl, stake_app.
  by destruct (Nat.leb_spec (String.length suffix)
                 (String.length pre + String.length suffix)); [|lia].
Qed.

End GoStringsFacts.

(* ===================================================================== *)
(** * [ExtractAssetID] *)
(* ===================================================================== *)

Module StatikFacts.
Import GoStrings GoStringsFacts Statik.

Lemma isHexByte_spec c :
  isHexByte c = true <-> In c (list_ascii_of_string hex_digits).
Proof.
  destruct c as [[] [] [] [] [] [] [] []]; vm_compute; split; intros H;
    first [ discriminate H
          | reflexivity
          | by repeat (first [left; reflexivity | right])
          | repeat (destruct H as [H|H]; [discriminate H|]); destruct H ].
Qed.

Lemma allHex_spec s :
  allHex s = true <->
  forall c, In c (list_ascii_of_string s) ->
            In c (list_ascii_of_string hex_digits).
Proof.
  induction s as [|a s IH].
  - split; [intros _ ? [] | done].
  - change (allHex (String a s)) with (if isHexByte a then allHex s else false).
    change (list_ascii_of_string (String a s))
      with (a :: list_ascii_of_string s).
    destruct (isHexByte a) eqn:Ha.
    + rewrite IH. apply isHexByte_spec in Ha. split.
      * intros H c [<-|Hc]; [exact Ha | by apply H].
      * intros H c Hc. apply H. by right.
    + split; [done|]. intros H.
      assert (isHexByte a = true) by (apply isHexByte_spec, H; by left).
      congruence.
Qed.

Lemma is_asset_id_spec s :
  isLongHexString s || String.eqb s "immutable" = true <-> is_asset_id s.
Proof.
  unfold is_asset_id, isLongHexString. rewrite orb_true_iff, String.eqb_eq.
  destruct (Z.ltb_spec (len s) 10) as [Hlt|Hge].
  - split; [intros [?|?]; [done | by left] | ].
    intros [?|[? _]]; [by right | lia].
  - rewrite allHex_spec. split.
    + intros [H|H]; [right; by split | by left].
    + intros [H|[_ H]]; [by right | by left].
Qed.

Lemma is_asset_id_nonempty s : is_asset_id s -> 0 < len s.
Proof. intros [->|[? _]]; [done | lia]. Qed.

(** The functions of [path] on rows of the table of Go's own tests. *)
Example Clean_table :
  map GoPath.Clean
    [""; "abc"; "abc/def"; "a/b/c"; "."; ".."; "../.."; "../../abc"; "/abc";
     "/"; "abc/"; "abc/def/"; "a/b/c/"; "./"; "../"; "../../"; "/abc/";
     "abc//def//ghi"; "//abc"; "///abc"; "//abc//"; "abc//";
     "abc/./def"; "/./abc/def"; "abc/.";
     "abc/def/ghi/../jkl"; "abc/def/../ghi/../jkl"; "abc/def/.."; "abc/def/../..";
     "/abc/def/../.."; "abc/def/../../.."; "/abc/def/../../..";
     "abc/def/../../../ghi/jkl/../../../mno";
     "abc/./../def"; "abc//./../def"; "abc/../../././../def"]
  = ["."; "abc"; "abc/def"; "a/b/c"; "."; ".."; "../.."; "../../abc"; "/abc";
     "/"; "abc"; "abc/def"; "a/b/c"; "."; ".."; "../.."; "/abc";
     "abc/def/ghi"; "/abc"; "/abc"; "/abc"; "abc";
     "abc/def"; "/abc/def"; "abc";
     "abc/def/jkl"; "abc/jkl"; "abc"; ".";
     "/"; ".."; "/";
     "../../mno";
     "def"; "def"; "../../def"].
Proof. reflexivity. Qed.

Example Base_table :
  map GoPath.Base [""; "."; "/."; "/"; "////"; "x/"; "abc"; "abc/def"; "a/b/.x";
                   "a/b/c."; "a/b/c.x"]
  = ["."; "."; "."; "/"; "/"; "x"; "abc"; "def"; ".x"; "c."; "c.x"].
Proof. reflexivity. Qed.

Example Dir_table :
  map GoPath.Dir [""; "."; "/."; "/"; "////"; "/foo"; "x/"; "abc"; "abc/def";
                  "abc////def"; "a/b/.x"; "a/b/c."; "a/b/c.x"]
  = ["."; "."; "/"; "/"; "/"; "/"; "x"; "."; "abc"; "abc"; "a/b"; "a/b"; "a/b"].
Proof. reflexivity. Qed.

Example Join_table :
  map GoPath.Join [[]; [""]; ["a"]; ["a"; "b"]; ["a"; ""]; [""; "b"]; ["/"; "a"];
                   ["/"; ""]; ["a/"; "b"]; ["a/"; ""]; [""; ""]]
  = [""; ""; "a"; "a/b"; "a"; "b"; "/a"; "/"; "a/b"; "a"; ""].
Proof. reflexivity. Qed.

(** The example in the comment of [ExtractAssetID], and a few more. *)
Example ExtractAssetID_examples :
  map ExtractAssetID
    ["foo.badbeefbadbeef.min.js"; "/css/app.immutable.css"; "foo.min.js";
     "foo.012345678.js"; "foo.0123456789.js"; "foo.012345678g.js"; "foo";
     "a.b/foo.0123456789.js"; "foo..js"; ""]
  = [Some ("foo.min.js", "badbeefbadbeef"); Some ("/css/app.css", "immutable");
     Some ("foo.min.js", ""); Some ("foo.012345678.js", "");
     Some ("foo.js", "0123456789"); Some ("foo.012345678g.js", "");
     Some ("foo", ""); Some ("a.b/foo.js", "0123456789");
     Some ("foo..js", ""); Some ("", "")].
Proof. reflexivity. Qed.

(** Close a goal on [slice] with a known slice of the same string. *)
Ltac slice_by H :=
  etrans; [|exact H];
  f_equal; first [reflexivity | unfold len; simpl; lia].

(** Every run of [ExtractAssetID] ends in one of two ways. *)
Lemma ExtractAssetID_cases file :
  ExtractAssetID file = Some (file, "")
  /\ ~ (exists name seg rest,
          GoPath.Base file = name +:+ "." +:+ seg +:+ "." +:+ rest
          /\ byte_free "." name /\ byte_free "." seg /\ is_asset_id seg)
  \/ exists name seg rest,
       GoPath.Base file = name +:+ "." +:+ seg +:+ "." +:+ rest
       /\ byte_free "." name /\ byte_free "." seg /\ is_asset_id seg
       /\ ExtractAssetID file = Some (rejoin file (name +:+ "." +:+ rest), seg).
Proof.
  unfold ExtractAssetID. remember (GoPath.Base file) as base eqn:Hbase.
  clear Hbase.
  destruct (Z.eq_dec (IndexByte base ".") (-1)) as [Hno|Hyes].
  { (* no dot at all *)
    left. split.
    - rewrite Hno. change (-1 + 1) with 0.
      destruct (Z.ltb_spec 0 (len base)); [|done].
      pose proof (slice_prefix base "") as Hs. rewrite app_nil_r in Hs.
      rewrite Hs. cbn. by rewrite Hno.
    - intros (name & seg & rest & Hb & _). apply IndexByte_free in Hno.
      exact (Hno name (seg +:+ "." +:+ rest) Hb). }
  destruct (IndexByte_split _ _ Hyes) as (name & tl & -> & Hname).
  rewrite (IndexByte_found _ _ _ Hname), len_app, len_cons.
  pose proof (len_nonneg name) as Hn0. pose proof (len_nonneg tl) as Ht0.
  (* any other way to cut the base name agrees with this one *)
  assert (forall name' seg' rest',
            name +:+ String "." tl = name' +:+ "." +:+ seg' +:+ "." +:+ rest' ->
            byte_free "." name' ->
            name' = name /\ tl = seg' +:+ "." +:+ rest') as Huniq.
  { intros name' seg' rest' Heq Hname'.
    destruct (split_unique "." name tl name' (seg' +:+ "." +:+ rest'));
      done. }
  destruct (Z.ltb_spec (len name + 1) (len name + (len tl + 1))) as [Hlt|Hge].
  2:{ (* the first dot ends the base name *)
    left. split; [done|]. intros (name' & seg & rest & Hb & Hn' & _ & Hid).
    destruct (Huniq _ _ _ Hb Hn') as [_ ->].
    rewrite !len_app in Hge. apply is_asset_id_nonempty in Hid.
    pose proof (len_nonneg rest). change (len ".") with 1 in Hge. lia. }
  assert (slice (name +:+ String "." tl) (len name + 1)
            (len name + (len tl + 1)) = Some tl) as ->.
  { pose proof (slice_suffix (name +:+ ".") tl) as Hs.
    rewrite app_assoc, !len_app in Hs. slice_by Hs. }
  cbn [mbind option_bind].
  destruct (Z.eq_dec (IndexByte tl ".") (-1)) as [Hno|Hyes2].
  { (* no second dot *)
    left. split.
    - rewrite Hno. by destruct (Z.ltb_spec (len name + 1) (len name + 1 + -1)); [lia|].
    - intros (name' & seg & rest & Hb & Hn' & _).
      destruct (Huniq _ _ _ Hb Hn') as [_ Htl]. apply IndexByte_free in Hno.
      exact (Hno seg rest Htl). }
  destruct (IndexByte_split _ _ Hyes2) as (seg & rest & -> & Hseg).
  rewrite (IndexByte_found _ _ _ Hseg).
  pose proof (len_nonneg seg) as Hs0.
  (* the segment between the two dots is [seg] in every cut *)
  assert (forall name' seg' rest',
            name +:+ String "." (seg +:+ String "." rest)
              = name' +:+ "." +:+ seg' +:+ "." +:+ rest' ->
            byte_free "." name' -> byte_free "." seg' ->
            seg' = seg) as Huniq2.
  { intros name' seg' rest' Heq Hn' Hs'.
    destruct (Huniq _ _ _ Heq Hn') as [_ Htl].
    by destruct (split_unique "." seg rest seg' rest'). }
  destruct (Z.ltb_spec (len name + 1) (len name + 1 + len seg)) as [Hlt2|Hge2].
  2:{ (* two dots in a row *)
    left. split; [done|]. intros (name' & seg' & rest' & Hb & Hn' & Hs' & Hid).
    rewrite (Huniq2 _ _ _ Hb Hn' Hs') in Hid.
    apply is_asset_id_nonempty in Hid. lia. }
  assert (slice (name +:+ String "." (seg +:+ String "." rest))
            (len name + 1) (len name + 1 + len seg) = Some seg) as ->.
  { pose proof (slice_mid (name +:+ ".") seg (String "." rest)) as Hs.
    rewrite app_assoc, !len_app in Hs. slice_by Hs. }
  cbn [mbind option_bind].
  destruct (isLongHexString seg || String.eqb seg "immutable")%bool eqn:Hid.
  2:{ (* the segment is no identifier *)
    left. split; [done|]. intros (name' & seg' & rest' & Hb & Hn' & Hs' & Hid').
    rewrite (Huniq2 _ _ _ Hb Hn' Hs') in Hid'.
    apply is_asset_id_spec in Hid'. congruence. }
  right. exists name, seg, rest. apply is_asset_id_spec in Hid.
  split; [done|]. do 3 (split; [done|]).
  replace (len name + 1 - 1) with (len name) by lia.
  rewrite slice_prefix. cbn [mbind option_bind].
  assert (slice (name +:+ String "." (seg +:+ String "." rest))
            (len name + 1 + len seg)
            (len name + (len (seg +:+ String "." rest) + 1))
          = Some (String "." rest)) as ->.
  { pose proof (slice_suffix (name +:+ "." +:+ seg) (String "." rest)) as Hs.
    rewrite !app_assoc, !len_app in Hs. rewrite !len_app. slice_by Hs. }
  cbn [mbind option_bind]. unfold rejoin.
  by destruct (String.eqb (GoPath.Dir file) ".").
Qed.

(** ** Language tags *)

Lemma HasPrefix_nil s : HasPrefix s "" = true.
Proof. by destruct s. Qed.

Lemma IndexByte_Index s c : IndexByte s c = Index s (String c "").
Proof.
  induction s as [|a s IH]; [done|]. simpl.
  rewrite IH, HasPrefix_nil, andb_true_r. done.
Qed.

(** [Index] finds where [before] stops. *)
Lemma Index_before s sep :
  (Index s sep = -1 /\ before sep s = s)
  \/ (0 <= Index s sep <= len s
      /\ before sep s = stake (Z.to_nat (Index s sep)) s).
Proof.
  induction s as [|a s IH].
  - destruct sep; [right | left]; done.
  - change (Index (String a s) sep)
      with (if HasPrefix (String a s) sep then 0
            else let i := Index s sep in if i <? 0 then -1 else i + 1).
    change (before sep (String a s))
      with (if HasPrefix (String a s) sep then ""
            else String a (before sep s)).
    rewrite len_cons. pose proof (len_nonneg s).
    destruct (HasPrefix (String a s) sep).
    + right. split; [lia | done].
    + cbv zeta. destruct IH as [[Hi Hb]|[Hi Hb]].
      * left. rewrite Hi, Hb. done.
      * right. destruct (Z.ltb_spec (Index s sep) 0); [lia|].
        split; [lia|]. rewrite Hb.
        replace (Z.to_nat (Index s sep + 1)) with (S (Z.to_nat (Index s sep)))
          by lia.
        done.
Qed.

(** The two cuts in the loop of [GetLanguageFromHeader] never panic, and
    cut where [before] does. *)
Lemma cut_before s sep :
  (let i := Index s sep in if 0 <=? i then slice s 0 i else Some s)
  = Some (before sep s).
Proof.
  cbv zeta. destruct (Index_before s sep) as [[Hi Hb]|[Hi Hb]].
  - by rewrite Hi, Hb.
  - destruct (Z.leb_spec 0 (Index s sep)); [|lia].
    unfold slice. rewrite !(proj2 (Z.leb_le _ _)) by lia. simpl.
    by rewrite Hb, Z.sub_0_r.
Qed.

Lemma before_split sep s :
  exists rest, s = before sep s +:+ rest
               /\ (rest = "" \/ HasPrefix rest sep = true).
Proof.
  induction s as [|a s IH].
  - exists "". destruct sep; split; auto.
  - change (before sep (String a s))
      with (if HasPrefix (String a s) sep then ""
            else String a (before sep s)).
    destruct (HasPrefix (String a s) sep) eqn:Hp.
    + exists (String a s). split; [done | by right].
    + destruct IH as (rest & Hs & Hrest). exists rest.
      split; [|done]. rewrite app_cons. by rewrite <- Hs.
Qed.

Lemma HasPrefix_app sep rest : HasPrefix (sep +:+ rest) sep = true.
Proof.
  induction sep as [|a sep IH]; [by destruct rest|].
  rewrite app_cons. simpl. by rewrite Ascii.eqb_refl, IH.
Qed.

(** [before] stops at the first occurrence: it is a prefix of what comes
    before any occurrence. *)
Lemma before_first sep p rest :
  exists q, p = before sep (p +:+ sep +:+ rest) +:+ q.
Proof.
  induction p as [|a p IH].
  - exists "". rewrite app_nil_l.
    destruct sep as [|c sep]; [by destruct rest|].
    change (before (String c sep) (String c sep +:+ rest))
      with (if HasPrefix (String c sep +:+ rest) (String c sep) then ""
            else String c (before (String c sep) (sep +:+ rest))).
    by rewrite HasPrefix_app.
  - rewrite app_cons.
    change (before sep (String a (p +:+ sep +:+ rest)))
      with (if HasPrefix (String a (p +:+ sep +:+ rest)) sep then ""
            else String a (before sep (p +:+ sep +:+ rest))).
    destruct (HasPrefix _ sep).
    + by exists (String a p).
    + destruct IH as [q Hq]. exists q. rewrite app_cons. by rewrite <- Hq.
Qed.

Section LanguageFacts.
Variable DefaultLocale : string.
Variable SupportedLocales : list string.
Variable SplitTrimString : string -> string -> list string.
Variable IsInArray : string -> list string -> bool.

Lemma language_loop_step tag rest lang :
  language_loop SupportedLocales IsInArray (tag :: rest) lang
  = if IsInArray (primary_language tag) SupportedLocales
    then Some (primary_language tag)
    else language_loop SupportedLocales IsInArray rest lang.
Proof.
  change (language_loop SupportedLocales IsInArray (tag :: rest) lang)
    with (tag1 ← (let i := Index tag ";q=" in
                  if 0 <=? i then slice tag 0 i else Some tag);
          tag2 ← (let i := IndexByte tag1 "-" in
                  if 0 <=? i then slice tag1 0 i else Some tag1);
          if IsInArray tag2 SupportedLocales then Some tag2
          else language_loop SupportedLocales IsInArray rest lang).
  rewrite cut_before. cbn [mbind option_bind].
  rewrite IndexByte_Index, cut_before. done.
Qed.

Lemma language_loop_none tags lang :
  (forall tag, tag ∈ tags ->
     IsInArray (primary_language tag) SupportedLocales = false) ->
  language_loop SupportedLocales IsInArray tags lang = Some lang.
Proof.
  induction tags as [|tag tags IH]; intros H; [done|].
  rewrite language_loop_step, H by left.
  apply IH. intros tag' Htag'. apply H. by right.
Qed.

Lemma language_loop_first tags lang (i : nat) tag :
  tags !! i = Some tag ->
  IsInArray (primary_language tag) SupportedLocales = true ->
  (forall (j : nat) tag', (j < i)%nat -> tags !! j = Some tag' ->
     IsInArray (primary_language tag') SupportedLocales = false) ->
  language_loop SupportedLocales IsInArray tags lang
  = Some (primary_language tag).
Proof.
  revert i. induction tags as [|t tags IH]; intros i Hi Hin Hfirst; [done|].
  rewrite language_loop_step. destruct i as [|i].
  - injection Hi as ->. by rewrite Hin.
  - rewrite (Hfirst 0%nat t) by (done || lia).
    apply (IH i); [done | done |].
    intros j tag' Hj Htag'. apply (Hfirst (S j)); [lia | done].
Qed.
Lemma language_loop_range tags lang :
  exists res,
    language_loop SupportedLocales IsInArray tags lang = Some res
    /\ (res = lang \/ IsInArray res SupportedLocales = true).
Proof.
  induction tags as [|tag tags IH]; [exists lang; by split; [|left]|].
  rewrite language_loop_step.
  destruct (IsInArray (primary_language tag) SupportedLocales) eqn:Hin;
    [|done].
  exists (primary_language tag). by split; [|right].
Qed.
End LanguageFacts.

(** A base name cut at its first two dots yields its identifier. *)
Lemma ExtractAssetID_found file name seg rest :
  GoPath.Base file = name +:+ "." +:+ seg +:+ "." +:+ rest ->
  byte_free "." name -> byte_free "." seg -> is_asset_id seg ->
  ExtractAssetID file = Some (rejoin file (name +:+ "." +:+ rest), seg).
Proof.
  intros Hb Hn Hs Hid.
  destruct (ExtractAssetID_cases file)
    as [[_ Hno]|(name' & seg' & rest' & Hb' & Hn' & Hs' & Hid' & Hres)].
  - exfalso. apply Hno. by exists name, seg, rest.
  - rewrite Hb in Hb'.
    destruct (split_unique "." name (seg +:+ "." +:+ rest)
                name' (seg' +:+ "." +:+ rest') Hn Hn' Hb') as [-> Htl].
    destruct (split_unique "." seg rest seg' rest' Hs Hs' Htl) as [-> ->].
    exact Hres.
Qed.

(** A file name without a directory is its own base name, in the
    directory [.]. *)
Lemma LastIndexByte_free s c : byte_free c s -> LastIndexByte s c = -1.
Proof.
  induction s as [|a s IH]; [done|]. intros [Hne Hs]%byte_free_cons.
  simpl. rewrite (IH Hs). simpl. by destruct (Ascii.eqb_spec a c).
Qed.

Lemma trim_slashes_free s : byte_free "/" s -> GoPath.trim_slashes s = s.
Proof.
  induction s as [|a s IH]; [done|]. intros [Hne Hs]%byte_free_cons.
  simpl. rewrite (IH Hs). destruct (Ascii.eqb_spec a "/"); [done|].
  by rewrite andb_false_r.
Qed.

Lemma Base_plain file :
  file <> "" -> byte_free "/" file -> GoPath.Base file = file.
Proof.
  intros Hne%String.eqb_neq Hfree. unfold GoPath.Base.
  rewrite Hne, trim_slashes_free, LastIndexByte_free by done. simpl.
  by rewrite Hne.
Qed.

Lemma Dir_plain file : byte_free "/" file -> GoPath.Dir file = ".".
Proof.
  intros Hfree. unfold GoPath.Dir, GoPath.Split.
  rewrite LastIndexByte_free by done. reflexivity.
Qed.

(** For a file name without a directory, the identifier is cut out of the
    name itself. *)
Lemma ExtractAssetID_plain name seg rest :
  byte_free "/" (name +:+ "." +:+ seg +:+ "." +:+ rest) ->
  byte_free "." name -> byte_free "." seg -> is_asset_id seg ->
  ExtractAssetID (name +:+ "." +:+ seg +:+ "." +:+ rest)
  = Some (name +:+ "." +:+ rest, seg).
Proof.
  intros Hfree Hn Hs Hid.
  rewrite (ExtractAssetID_found _ name seg rest); [| |done..].
  - unfold rejoin. by rewrite Dir_plain.
  - apply Base_plain; [by destruct name | done].
Qed.

(** ** The claims on the asset handler *)

(** C8, as stated, fails.  The base name of [foo.0123456789abcdef] has the
    second dot-separated segment [0123456789abcdef], sixteen hexadecimal
    digits, but no dot follows it: [ExtractAssetID] returns the path as it
    is, with an empty identifier.  And where a segment is removed the path
    is rebuilt with [path.Join] on [path.Dir]: [./foo.immutable.js] becomes
    [foo.js], not [./foo.js]. *)
Lemma ExtractAssetID_second_segment_counterexample :
  dot_segments (GoPath.Base "foo.0123456789abcdef") !! 1%nat
    = Some "0123456789abcdef"
  /\ is_asset_id "0123456789abcdef"
  /\ ExtractAssetID "foo.0123456789abcdef" = Some ("foo.0123456789abcdef", "")
  /\ ExtractAssetID "./foo.immutable.js" = Some ("foo.js", "immutable").
Proof.
  split; [reflexivity|]. split; [|split; reflexivity].
  apply is_asset_id_spec. reflexivity.
Qed.

(** C8, amended.  When the base name of the path is [name.seg.rest], with
    no dot in [name] nor in [seg], and [seg] is the word [immutable] or at
    least ten hexadecimal digits, [ExtractAssetID] returns [seg] as the
    identifier and, as the path, [name.rest] put back under the directory
    of the path ([path.Join] on [path.Dir], or [name.rest] alone in the
    directory [.]).  For every other path it returns the path unchanged
    and an empty identifier.  No slice expression panics. *)
Theorem ExtractAssetID_spec (file : string) :
  (forall name seg rest,
     GoPath.Base file = name +:+ "." +:+ seg +:+ "." +:+ rest ->
     byte_free "." name -> byte_free "." seg -> is_asset_id seg ->
     ExtractAssetID file = Some (rejoin file (name +:+ "." +:+ rest), seg))
  /\ (~ (exists name seg rest,
           GoPath.Base file = name +:+ "." +:+ seg +:+ "." +:+ rest
           /\ byte_free "." name /\ byte_free "." seg /\ is_asset_id seg) ->
      ExtractAssetID file = Some (file, "")).
Proof.
  split; [intros name seg rest; apply ExtractAssetID_found|].
  intros Hno.
  destruct (ExtractAssetID_cases file)
    as [[Hres _]|(name & seg & rest & Hb & Hn & Hs & Hid & _)]; [done|].
  exfalso. apply Hno. by exists name, seg, rest.
Qed.

Lemma ExtractAssetID_spec_witness :
  ExtractAssetID "/js/foo.badbeefbadbeef.min.js"
    = Some ("/js/foo.min.js", "badbeefbadbeef")
  /\ ExtractAssetID "/js/foo.min.js" = Some ("/js/foo.min.js", "").
Proof.
  split.
  - apply (proj1 (ExtractAssetID_spec "/js/foo.badbeefbadbeef.min.js")
             "foo" "badbeefbadbeef" "min.js").
    + reflexivity.
    + apply IndexByte_free. reflexivity.
    + apply IndexByte_free. reflexivity.
    + apply is_asset_id_spec. reflexivity.
  - apply (proj2 (ExtractAssetID_spec "/js/foo.min.js")).
    intros (name & seg & rest & Hb & Hn & Hs & Hid).
    change (GoPath.Base "/js/foo.min.js") with ("foo" +:+ "." +:+ "min.js") in Hb.
    destruct (split_unique "." "foo" "min.js" name (seg +:+ "." +:+ rest))
      as [_ Htl]; [by apply IndexByte_free | done | done |].
    change "min.js" with ("min" +:+ "." +:+ "js") in Htl.
    destruct (split_unique "." "min" "js" seg rest)
      as [<- _]; [by apply IndexByte_free | done | done |].
    apply is_asset_id_spec in Hid. discriminate Hid.
Defined.

(** C9.  [GetLanguageFromHeader] returns the default locale when the
    [Accept-Language] header is empty or when no tag of it stands for a
    supported locale; otherwise it returns the language of the first tag
    that does, the language of a tag being what comes before its [;q=]
    quality factor and its [-] country variant.  The tags are the ones
    [utils.SplitTrimString] finds between the commas. *)
Theorem GetLanguageFromHeader_first_supported
    (DefaultLocale : string) (SupportedLocales : list string)
    (SplitTrimString : string -> string -> list string)
    (IsInArray : string -> list string -> bool) (header : Header) :
  (forall s l, IsInArray s l = true <-> s ∈ l) ->
  let acceptHeader := Header_Get header "Accept-Language" in
  let tags := SplitTrimString acceptHeader "," in
  let lang :=
    GetLanguageFromHeader DefaultLocale SupportedLocales SplitTrimString
      IsInArray header in
  (acceptHeader = "" -> lang = Some DefaultLocale)
  /\ (acceptHeader <> "" ->
      (forall tag, tag ∈ tags -> primary_language tag ∉ SupportedLocales) ->
      lang = Some DefaultLocale)
  /\ (acceptHeader <> "" ->
      forall (i : nat) tag,
        tags !! i = Some tag ->
        primary_language tag ∈ SupportedLocales ->
        (forall (j : nat) tag', (j < i)%nat -> tags !! j = Some tag' ->
           primary_language tag' ∉ SupportedLocales) ->
        lang = Some (primary_language tag)).
Proof.
  intros Hin acceptHeader tags lang.
  assert (forall s, s ∉ SupportedLocales -> IsInArray s SupportedLocales = false)
    as Hout.
  { intros s Hs. destruct (IsInArray s SupportedLocales) eqn:E; [|done].
    by apply Hin in E. }
  subst lang. unfold GetLanguageFromHeader. fold acceptHeader. fold tags.
  split; [|split].
  - intros ->. done.
  - intros Hne Hnone. apply String.eqb_neq in Hne. rewrite Hne.
    apply language_loop_none. auto.
  - intros Hne i tag Hi Hsup Hfirst. apply String.eqb_neq in Hne.
    rewrite Hne. apply (language_loop_first _ _ _ _ i); [done| |].
    + by apply Hin.
    + intros j tag' Hj Htag'. apply Hout. by apply (Hfirst j).
Qed.

Lemma GetLanguageFromHeader_first_supported_witness :
  GetLanguageFromHeader "en" ["en"; "fr"] split_trim
    (fun s l => bool_decide (s ∈ l))
    {["Accept-Language" := ["da, fr-CA;q=0.8, en;q=0.7"]]}
  = Some "fr".
Proof.
  refine (proj2 (proj2 (GetLanguageFromHeader_first_supported
            "en" ["en"; "fr"] split_trim (fun s l => bool_decide (s ∈ l))
            {["Accept-Language" := ["da, fr-CA;q=0.8, en;q=0.7"]]} _))
          _ 1%nat "fr-CA;q=0.8" _ _ _).
  - intros s l. exact (bool_decide_eq_true (s ∈ l)).
  - vm_compute. discriminate.
  - vm_compute. reflexivity.
  - vm_compute. right. left.
  - intros [|j] tag' Hj Htag'; [|lia].
    vm_compute in Htag'. injection Htag' as <-.
    intros H%list_elem_of_In. vm_compute in H.
    destruct H as [H|[H|[]]]; discriminate H.
Defined.

(** C10.  A request with a method other than GET and HEAD gets the status
    405 and nothing else: the handler looks no asset up and copies no
    content to the response. *)
Theorem ServeHTTP_method_not_allowed (env : Env) (r : Request) :
  Method r <> MethodGet -> Method r <> MethodHead ->
  ServeHTTP env r = [WriteHeader StatusMethodNotAllowed]
  /\ (forall name context, AssetsGet name context ∉ ServeHTTP env r)
  /\ (forall content, Copy content ∉ ServeHTTP env r).
Proof.
  intros Hget%String.eqb_neq Hhead%String.eqb_neq.
  assert (ServeHTTP env r = [WriteHeader StatusMethodNotAllowed]) as ->.
  { unfold ServeHTTP. by rewrite Hget, Hhead. }
  split; [done|].
  split; [intros name context | intros content];
    intros H%list_elem_of_singleton; discriminate H.
Qed.

Lemma ServeHTTP_method_not_allowed_witness :
  ServeHTTP {| lifecycle_GetInstance := fun _ => None;
               assets_Get := fun _ _ => None;
               utils_CheckPreconditions := fun _ _ => false |}
            {| Method := "POST"; URL_Path := "/assets/js/cozy.js";
               Host := "cozy.localhost"; Req_Header := ∅ |}
  = [WriteHeader 405].
Proof.
  apply (ServeHTTP_method_not_allowed
           {| lifecycle_GetInstance := fun _ => None;
              assets_Get := fun _ _ => None;
              utils_CheckPreconditions := fun _ _ => false |}
           {| Method := "POST"; URL_Path := "/assets/js/cozy.js";
              Host := "cozy.localhost"; Req_Header := ∅ |});
    vm_compute; discriminate.
Defined.

(** ** The rest of [handler.go] *)

Lemma ext_loop_spec n pre suf :
  String.length pre = n -> byte_free "." suf -> byte_free "/" suf ->
  exists pre',
    pre +:+ suf = pre' +:+ GoPath.ext_loop (pre +:+ suf) n
    /\ byte_free "/" (GoPath.ext_loop (pre +:+ suf) n)
    /\ (GoPath.ext_loop (pre +:+ suf) n = ""
        \/ exists e, GoPath.ext_loop (pre +:+ suf) n = String "." e
                     /\ byte_free "." e).
Proof.
  revert pre suf. induction n as [|i IH]; intros pre suf Hlen Hdot Hslash.
  - exists (pre +:+ suf). simpl. rewrite app_nil_r.
    split; [done|]. split; [apply byte_free_nil | by left].
  - destruct (snoc_split pre i Hlen) as (pre0 & c & -> & <-).
    rewrite app_assoc, app_cons, app_nil_l.
    cbn [GoPath.ext_loop]. rewrite get_app.
    destruct (Ascii.eqb_spec c "/") as [->|Hc1].
    + exists (pre0 +:+ String "/" suf). rewrite app_nil_r.
      split; [done|]. split; [apply byte_free_nil | by left].
    + destruct (Ascii.eqb_spec c ".") as [->|Hc2].
      * rewrite sdrop_app. exists pre0. split; [done|].
        split; [by apply byte_free_cons | right; by exists suf].
      * apply (IH pre0 (String c suf));
          [done | by apply byte_free_cons | by apply byte_free_cons].
Qed.

Lemma ExtractAssetID_total file :
  exists name id, ExtractAssetID file = Some (name, id).
Proof.
  destruct (ExtractAssetID_cases file)
    as [[-> _]|(name & seg & rest & _ & _ & _ & _ & ->)]; eauto.
Qed.

(** One of the equations of a disjunction holds by computation. *)
Ltac one_of := solve [repeat first [left; reflexivity | right]].

(** Membership in a response of [ServeFile], case by case. *)
Ltac serve_file_cases env r f checkETag :=
  unfold ServeFile;
  destruct checkETag;
  destruct (utils_CheckPreconditions env r (Etag f));
  destruct (Contains (Header_Get (Req_Header r) "Accept-Encoding") "br");
  destruct (String.eqb_spec (Method r) MethodGet);
  cbn [andb app];
  rewrite ?elem_of_cons, ?elem_of_nil.

Lemma ServeFile_sends env r f checkETag c :
  c ∈ ServeFile env r f checkETag ->
  is_lookup c = false
  /\ (forall msg status, c <> HttpError msg status)
  /\ (forall status, c <> WriteHeader status).
Proof.
  serve_file_cases env r f checkETag; intros H;
    repeat (destruct H as [->|H]; [by repeat split|]); done.
Qed.

Lemma ServeFile_body env r f checkETag content :
  Copy content ∈ ServeFile env r f checkETag ->
  Method r = MethodGet
  /\ ((HeaderSet "Content-Encoding" "br" ∈ ServeFile env r f checkETag
       /\ content = BrotliReader f)
      \/ ((HeaderSet "Content-Encoding" "br" ∉ ServeFile env r f checkETag)
          /\ content = Reader f)).
Proof.
  serve_file_cases env r f checkETag; intros H;
    repeat (destruct H as [H|H]; [discriminate H|]);
    try done;
    destruct H as [[= ->]|[]]; (split; [done|]);
    first [ left; split; [one_of | done]
          | right; split; [|done]; intros Hin;
            repeat (destruct Hin as [Hin|Hin]; [discriminate Hin|]);
            done ].
Qed.

Lemma ServeFile_cache env r f checkETag value :
  HeaderSet "Cache-Control" value ∈ ServeFile env r f checkETag ->
  (value = "no-cache, public"
   /\ CheckPreconditions (Etag f) ∈ ServeFile env r f checkETag
   /\ HeaderSet "Etag" (Etag f) ∈ ServeFile env r f checkETag)
  \/ (value = "max-age=31536000, public, immutable"
      /\ forall etag,
           (CheckPreconditions etag ∉ ServeFile env r f checkETag)
           /\ HeaderSet "Etag" etag ∉ ServeFile env r f checkETag).
Proof.
  serve_file_cases env r f checkETag; intros H;
    repeat (destruct H as [H|H]; [discriminate H|]);
    try done;
    repeat (destruct H as [[= ->]|H];
            [ first [ left; split; [done|]; split; one_of
                    | right; split; [done|]; intros etag;
                      split; intros Hin;
                      rewrite ?elem_of_cons, ?elem_of_nil in Hin;
                      repeat (destruct Hin as [Hin|Hin];
                              [discriminate Hin|]);
                      done ]
            | ]);
    try done;
    repeat (destruct H as [H|H]; [discriminate H|]); done.
Qed.

Lemma ServeFile_etag env r f checkETag etag :
  CheckPreconditions etag ∈ ServeFile env r f checkETag
  \/ HeaderSet "Etag" etag ∈ ServeFile env r f checkETag ->
  etag = Etag f.
Proof.
  serve_file_cases env r f checkETag; intros [H|H];
    repeat (destruct H as [H|H];
            [first [discriminate H | by injection H]|]);
    done.
Qed.

(** What [ServeHTTP] does, in three cases: a refused method; lookups and
    a 404; lookups and the response of [ServeFile] for an asset that
    [assets.Get] has found. *)
Lemma ServeHTTP_cases env r :
  ServeHTTP env r = [WriteHeader StatusMethodNotAllowed]
  \/ exists lookups,
       Forall (fun c => is_lookup c = true) lookups
       /\ (ServeHTTP env r
           = lookups ++ [HttpError "File not found" StatusNotFound]
           \/ exists name context f checkETag,
                AssetsGet name context ∈ lookups
                /\ assets_Get env name context = Some f
                /\ ServeHTTP env r
                   = lookups ++ ServeFile env r f checkETag).
Proof.
  assert (forall name context pre,
            Forall (fun c => is_lookup c = true) pre ->
            exists lookups,
              Forall (fun c => is_lookup c = true) lookups
              /\ (pre ++ serve_asset env r name context
                  = lookups ++ [HttpError "File not found" StatusNotFound]
                  \/ exists name' context' f checkETag,
                       AssetsGet name' context' ∈ lookups
                       /\ assets_Get env name' context' = Some f
                       /\ pre ++ serve_asset env r name context
                          = lookups ++ ServeFile env r f checkETag))
    as Hserve.
  { intros name context pre Hpre. unfold serve_asset.
    destruct (ExtractAssetID_total name) as (name' & id & ->).
    set (name'' := match name' with
                   | "" => name'
                   | String c _ =>
                       if negb (Ascii.eqb c "/") then "/" +:+ name' else name'
                   end).
    exists (pre ++ [AssetsGet name'' context]). split.
    { apply Forall_app. split; [done|]. by repeat constructor. }
    destruct (assets_Get env name'' context) as [f|] eqn:Hget.
    - right. exists name'', context, f, (String.eqb id "").
      split; [|split; [done|]].
      + apply elem_of_app. right. left.
      + by rewrite <- List.app_assoc.
    - left. by rewrite <- List.app_assoc. }
  unfold ServeHTTP.
  destruct (negb (String.eqb (Method r) MethodGet)
            && negb (String.eqb (Method r) MethodHead)); [by left|].
  right.
  destruct (HasPrefix (URL_Path r) (assetsExtPrefix +:+ "/")).
  - destruct (SplitN2 _ "/") as [|context [|name [|? ?]]].
    + exists []. split; [done | by left].
    + exists []. split; [done | by left].
    + apply (Hserve name context []). done.
    + exists []. split; [done | by left].
  - apply (Hserve _ _ [GetInstance (Host r)]). by repeat constructor.
Qed.

(** X26.  [fileExtension] and [basename] cut a file name in two: the
    base name followed by the extension is the file name.  The extension
    has no slash; it is empty or a dot followed by bytes without a
    dot. *)
Theorem basename_fileExtension (filename : string) :
  basename filename +:+ fileExtension filename = filename
  /\ byte_free "/" (fileExtension filename)
  /\ (fileExtension filename = ""
      \/ exists e, fileExtension filename = String "." e
                   /\ byte_free "." e).
Proof.
  unfold basename, fileExtension, GoPath.Ext.
  destruct (ext_loop_spec (String.length filename) filename "" eq_refl
              (byte_free_nil _) (byte_free_nil _)) as (pre & Hcut & Hext).
  rewrite app_nil_r in Hcut, Hext. split; [|done].
  rewrite Hcut at 1. by rewrite TrimSuffix_app.
Qed.

(** X27.  [GetLanguageFromHeader] always returns, whatever the header: no
    slice expression panics, and the language is the default locale or a
    locale that [utils.IsInArray] finds among the supported ones. *)
Theorem GetLanguageFromHeader_default_or_supported
    (DefaultLocale : string) (SupportedLocales : list string)
    (SplitTrimString : string -> string -> list string)
    (IsInArray : string -> list string -> bool) (header : Header) :
  exists lang,
    GetLanguageFromHeader DefaultLocale SupportedLocales SplitTrimString
      IsInArray header = Some lang
    /\ (lang = DefaultLocale \/ IsInArray lang SupportedLocales = true).
Proof.
  unfold GetLanguageFromHeader.
  destruct (String.eqb (Header_Get header "Accept-Language") "").
  - exists DefaultLocale. by split; [|left].
  - apply language_loop_range.
Qed.

(** X28.  The bodies that [ServeHTTP] writes.  With [io.Copy] it copies
    content only for a GET request, and the content is the one of an asset
    that [assets.Get] has found: the compressed content when the response
    says [Content-Encoding: br], the plain content when it does not.  The
    only other body is the text [File not found] that [http.Error] writes
    with the status 404, for GET and HEAD alike, in a response to which no
    content is copied. *)
Theorem ServeHTTP_body (env : Env) (r : Request) :
  (forall content,
     Copy content ∈ ServeHTTP env r ->
     Method r = MethodGet
     /\ exists name context f,
          AssetsGet name context ∈ ServeHTTP env r
          /\ assets_Get env name context = Some f
          /\ ((HeaderSet "Content-Encoding" "br" ∈ ServeHTTP env r
               /\ content = BrotliReader f)
              \/ ((HeaderSet "Content-Encoding" "br" ∉ ServeHTTP env r)
                  /\ content = Reader f)))
  /\ (forall msg status,
        HttpError msg status ∈ ServeHTTP env r ->
        msg = "File not found" /\ status = StatusNotFound
        /\ (Method r = MethodGet \/ Method r = MethodHead)
        /\ forall content, Copy content ∉ ServeHTTP env r).
Proof.
  assert (ServeHTTP env r <> [WriteHeader StatusMethodNotAllowed] ->
          Method r = MethodGet \/ Method r = MethodHead) as Hmethod.
  { unfold ServeHTTP.
    destruct (String.eqb_spec (Method r) MethodGet); [by left|].
    destruct (String.eqb_spec (Method r) MethodHead); [by right|].
    simpl. by intros []. }
  destruct (ServeHTTP_cases env r)
    as [Hrun|(lookups & Hlook & [Hrun|(name & context & f & b & Hin & Hget
                                        & Hrun)])];
    rewrite Hrun in *.
  - split.
    + intros content H%list_elem_of_singleton. discriminate H.
    + intros msg status H%list_elem_of_singleton. discriminate H.
  - split.
    + intros content [H|H%list_elem_of_singleton]%elem_of_app;
        [|discriminate H].
      by apply (proj1 (Forall_forall _ _) Hlook) in H.
    + intros msg status [H|H%list_elem_of_singleton]%elem_of_app.
      { by apply (proj1 (Forall_forall _ _) Hlook) in H. }
      injection H as -> ->. split; [done|]. split; [done|].
      split.
      { apply Hmethod. intros Heq.
        destruct lookups as [|c [|c' l]]; discriminate Heq. }
      intros content [H|H%list_elem_of_singleton]%elem_of_app;
        [|discriminate H].
      by apply (proj1 (Forall_forall _ _) Hlook) in H.
  - split.
    + intros content [H|H]%elem_of_app.
      { by apply (proj1 (Forall_forall _ _) Hlook) in H. }
      destruct (ServeFile_body env r f b content H) as [Hget' Hbody].
      split; [done|]. exists name, context, f.
      split; [apply elem_of_app; by left|]. split; [done|].
      destruct Hbody as [[Hbr ->]|[Hbr ->]].
      * left. split; [|done]. apply elem_of_app. by right.
      * right. split; [|done]. intros [Hbr'|Hbr']%elem_of_app; [|done].
        by apply (proj1 (Forall_forall _ _) Hlook) in Hbr'.
    + intros msg status [H|H]%elem_of_app.
      { by apply (proj1 (Forall_forall _ _) Hlook) in H. }
      apply ServeFile_sends in H as (_ & H & _). by destruct (H msg status).
Qed.

Lemma ServeHTTP_body_witness :
  let env :=
    {| lifecycle_GetInstance := fun _ => Some "cozy";
       assets_Get := fun name _ =>
         if String.eqb name "/js/cozy.js"
         then Some {| Etag := "e1"; Mime := "text/javascript"; Size := "5";
                      BrotliSize := "3"; Reader := "plain";
                      BrotliReader := "brotli" |}
         else None;
       utils_CheckPreconditions := fun _ _ => false |} in
  let r := {| Method := "GET";
              URL_Path := "/assets/js/cozy.0123456789abcdef.js";
              Host := "cozy.localhost";
              Req_Header := {[ "Accept-Encoding" := ["gzip, br"] ]} |} in
  Method r = MethodGet
  /\ exists name context f,
       AssetsGet name context ∈ ServeHTTP env r
       /\ assets_Get env name context = Some f
       /\ ((HeaderSet "Content-Encoding" "br" ∈ ServeHTTP env r
            /\ "brotli" = BrotliReader f)
           \/ ((HeaderSet "Content-Encoding" "br" ∉ ServeHTTP env r)
               /\ "brotli" = Reader f)).
Proof.
  intros env r. apply (proj1 (ServeHTTP_body env r) "brotli").
  apply list_elem_of_In. vm_compute. one_of.
Defined.

(** X29.  When [ServeHTTP] answers with an error, the error is a 404 and
    nothing else is sent: besides the error, the handler has only
    consulted [lifecycle.GetInstance] and [assets.Get]; it has set no
    header and copied no content. *)
Theorem ServeHTTP_not_found_sends_nothing
    (env : Env) (r : Request) (msg : string) (status : Z) :
  HttpError msg status ∈ ServeHTTP env r ->
  status = StatusNotFound
  /\ forall c, c ∈ ServeHTTP env r ->
       c = HttpError msg status \/ is_lookup c = true.
Proof.
  destruct (ServeHTTP_cases env r)
    as [->|(lookups & Hlook & [->|(name & context & f & b & Hin & Hget & ->)])].
  - intros H%list_elem_of_singleton. discriminate H.
  - intros [H|H%list_elem_of_singleton]%elem_of_app.
    { by apply (proj1 (Forall_forall _ _) Hlook) in H. }
    injection H as -> ->. split; [done|].
    intros c [Hc|Hc%list_elem_of_singleton]%elem_of_app; [right | by left].
    by apply (proj1 (Forall_forall _ _) Hlook).
  - intros [H|H]%elem_of_app.
    { by apply (proj1 (Forall_forall _ _) Hlook) in H. }
    apply ServeFile_sends in H as (_ & H & _). by destruct (H msg status).
Qed.

Lemma ServeHTTP_not_found_sends_nothing_witness :
  let env := {| lifecycle_GetInstance := fun _ => None;
                assets_Get := fun _ _ => None;
                utils_CheckPreconditions := fun _ _ => false |} in
  let r := {| Method := "GET"; URL_Path := "/assets/ext/mycontext";
              Host := "cozy.localhost"; Req_Header := ∅ |} in
  404 = StatusNotFound
  /\ forall c, c ∈ ServeHTTP env r ->
       c = HttpError "File not found" 404 \/ is_lookup c = true.
Proof.
  intros env r.
  apply (ServeHTTP_not_found_sends_nothing env r "File not found" 404).
  apply list_elem_of_In. vm_compute. one_of.
Defined.

(** X30.  [ServeHTTP] has two caching policies and does not mix them.  A
    response with a [Cache-Control] header is the response for an asset
    that [assets.Get] has found.  With [Cache-Control: no-cache, public] it
    carries the [Etag] of that asset, [utils.CheckPreconditions] has been
    consulted on that tag, and no other tag is sent or checked.  With any
    other [Cache-Control] it has the immutable one, carries no [Etag], and
    the preconditions have not been consulted. *)
Theorem ServeHTTP_cache_policy (env : Env) (r : Request) (value : string) :
  HeaderSet "Cache-Control" value ∈ ServeHTTP env r ->
  exists name context f,
    AssetsGet name context ∈ ServeHTTP env r
    /\ assets_Get env name context = Some f
    /\ ((value = "no-cache, public"
         /\ CheckPreconditions (Etag f) ∈ ServeHTTP env r
         /\ HeaderSet "Etag" (Etag f) ∈ ServeHTTP env r
         /\ (forall etag,
               CheckPreconditions etag ∈ ServeHTTP env r
               \/ HeaderSet "Etag" etag ∈ ServeHTTP env r ->
               etag = Etag f))
        \/ (value = "max-age=31536000, public, immutable"
            /\ forall etag,
                 (CheckPreconditions etag ∉ ServeHTTP env r)
                 /\ HeaderSet "Etag" etag ∉ ServeHTTP env r)).
Proof.
  destruct (ServeHTTP_cases env r)
    as [->|(lookups & Hlook & [->|(name & context & f & b & Hin & Hget & ->)])].
  - intros H%list_elem_of_singleton. discriminate H.
  - intros [H|H%list_elem_of_singleton]%elem_of_app; [|discriminate H].
    by apply (proj1 (Forall_forall _ _) Hlook) in H.
  - intros [H|H]%elem_of_app.
    { by apply (proj1 (Forall_forall _ _) Hlook) in H. }
    exists name, context, f.
    split; [apply elem_of_app; by left|]. split; [done|].
    destruct (ServeFile_cache env r f b value H)
      as [(-> & Hpre & Hetag)|(-> & Hnone)].
    + left. split; [done|].
      split; [apply elem_of_app; by right|].
      split; [apply elem_of_app; by right|].
      intros etag [[H'|H']%elem_of_app|[H'|H']%elem_of_app];
        try (by apply (proj1 (Forall_forall _ _) Hlook) in H');
        apply (ServeFile_etag env r f b etag); auto.
    + right. split; [done|]. intros etag.
      destruct (Hnone etag) as [Hpre Hetag].
      split; intros [H'|H']%elem_of_app; try done;
        by apply (proj1 (Forall_forall _ _) Hlook) in H'.
Qed.

Lemma ServeHTTP_cache_policy_witness :
  let asset := {| Etag := "e1"; Mime := "text/javascript"; Size := "5";
                  BrotliSize := "3"; Reader := "plain";
                  BrotliReader := "brotli" |} in
  let env :=
    {| lifecycle_GetInstance := fun _ => Some "cozy";
       assets_Get := fun name _ =>
         if String.eqb name "/js/cozy.js" then Some asset else None;
       utils_CheckPreconditions := fun _ _ => false |} in
  let r := {| Method := "HEAD"; URL_Path := "/assets/js/cozy.js";
              Host := "cozy.localhost"; Req_Header := ∅ |} in
  CheckPreconditions "e1" ∈ ServeHTTP env r
  /\ HeaderSet "Etag" "e1" ∈ ServeHTTP env r.
Proof.
  intros asset env r.
  destruct (ServeHTTP_cache_policy env r "no-cache, public")
    as (name & context & f & Hlook & Hget & [(_ & Hpre & Hetag & _)|[H _]]).
  - apply list_elem_of_In. vm_compute. one_of.
  - assert (f = asset) as ->; [|by split].
    unfold env in Hget. simpl in Hget.
    destruct (String.eqb name "/js/cozy.js"); [by injection Hget | done].
  - discriminate H.
Defined.

End StatikFacts.

(* ===================================================================== *)
(** * Rules, sets and permission documents *)
(* ===================================================================== *)

Module PermissionFacts.
Import Permission.

Lemma all_verbs_complete v : In v all_verbs.
Proof. destruct v; simpl; tauto. Qed.

Lemma VerbSet_IsSubSetOf_spec vs parent :
  VerbSet_IsSubSetOf vs parent = true <->
  forall v, VerbSet_Contains vs v = true -> VerbSet_Contains parent v = true.
Proof.
  unfold VerbSet_IsSubSetOf. rewrite forallb_forall. split.
  - intros H v Hv. specialize (H v (all_verbs_complete v)).
    rewrite Hv in H. exact H.
  - intros H v _. destruct (VerbSet_Contains vs v) eqn:Hv; [|done].
    simpl. by apply H.
Qed.

Lemma VerbSet_IsSubSetOf_refl vs : VerbSet_IsSubSetOf vs vs = true.
Proof. by apply VerbSet_IsSubSetOf_spec. Qed.

Lemma VerbSet_IsSubSetOf_trans a b c :
  VerbSet_IsSubSetOf a b = true -> VerbSet_IsSubSetOf b c = true ->
  VerbSet_IsSubSetOf a c = true.
Proof. rewrite !VerbSet_IsSubSetOf_spec. auto. Qed.

Lemma VerbSet_Contains_empty v : VerbSet_Contains ∅ v = true.
Proof. unfold VerbSet_Contains. by rewrite decide_True. Qed.

(** The four conditions of [Rule_isSubsetOf], one by one. *)
Lemma Rule_isSubsetOf_spec r parent :
  Rule_isSubsetOf r parent = true <->
  (Type_ r = Type_ parent \/ Type_ r = consts_Files)
  /\ VerbSet_IsSubSetOf (Verbs r) (Verbs parent) = true
  /\ (Values parent = [] \/ forall v, v ∈ Values r -> v ∈ Values parent)
  /\ (Selector r = Selector parent \/ Selector parent = "").
Proof.
  unfold Rule_isSubsetOf.
  rewrite !andb_true_iff, !orb_true_iff, !String.eqb_eq, bool_decide_eq_true.
  rewrite forallb_forall.
  setoid_rewrite bool_decide_eq_true. setoid_rewrite <- list_elem_of_In.
  tauto.
Qed.

Lemma Set_IsSubSetOf_spec s parentSet :
  Set_IsSubSetOf s parentSet = true <->
  forall r, r ∈ s ->
    exists parent, parent ∈ parentSet
      /\ (Title r = Title parent \/ Type_ r = consts_Files)
      /\ Rule_isSubsetOf r parent = true.
Proof.
  unfold Set_IsSubSetOf. rewrite forallb_forall. split.
  - intros H r Hr. apply list_elem_of_In, H in Hr.
    apply existsb_exists in Hr as (parent & Hin & Hp).
    apply andb_true_iff in Hp as [Ht Hsub].
    apply orb_true_iff in Ht. rewrite !String.eqb_eq in Ht.
    exists parent. split; [by apply list_elem_of_In | done].
  - intros H r Hr. apply list_elem_of_In in Hr.
    destruct (H r Hr) as (parent & Hin & Ht & Hsub).
    apply existsb_exists. exists parent.
    split; [by apply list_elem_of_In|].
    rewrite Hsub, andb_true_r. apply orb_true_iff.
    by rewrite !String.eqb_eq.
Qed.

Lemma Rule_isSubsetOf_trans a b c :
  Type_ a <> consts_Files ->
  (Values b = [] -> Values c = []) ->
  Rule_isSubsetOf a b = true -> Rule_isSubsetOf b c = true ->
  Rule_isSubsetOf a c = true.
Proof.
  rewrite !Rule_isSubsetOf_spec.
  intros Hfile Hval (Hty1 & Hv1 & Hvals1 & Hsel1) (Hty2 & Hv2 & Hvals2 & Hsel2).
  destruct Hty1 as [Hty1|]; [|done].
  split; [|split; [|split]].
  - destruct Hty2 as [Hty2|Hty2]; [left; congruence|].
    rewrite <- Hty1 in Hty2. done.
  - by eapply VerbSet_IsSubSetOf_trans.
  - destruct Hvals2 as [?|Hvals2]; [by left|].
    destruct Hvals1 as [Hb|Hvals1]; [left; auto | right; auto].
  - destruct Hsel2 as [Hsel2|?]; [|by right].
    destruct Hsel1 as [Hsel1|Hsel1]; [left; congruence|].
    right. congruence.
Qed.

(** ** Merging *)

Lemma add_value_present values v : v ∈ values -> add_value values v = values.
Proof. intros H. unfold add_value. by rewrite bool_decide_eq_true_2. Qed.

Lemma union_values_incl values extra :
  (forall v, v ∈ extra -> v ∈ values) -> union_values values extra = values.
Proof.
  unfold union_values. induction extra as [|v extra IH]; intros H; [done|].
  simpl. rewrite add_value_present by (apply H; left).
  apply IH. intros v' Hv'. apply H. by right.
Qed.

Lemma Rule_Merge_self r : Rule_Merge r r = Some r.
Proof.
  destruct r as [t ty vs sel vals]. unfold Rule_Merge, VerbSet_Merge. simpl.
  rewrite union_values_incl by done. f_equal. f_equal. apply union_idemp_L.
Qed.

Section MergeFacts.
Variable Merge : Rule -> Rule -> option Rule.

Lemma append_new_known perms extra acc :
  (forall ep, ep ∈ extra -> exists p, p ∈ perms /\ Title ep = Title p) ->
  append_new perms extra acc = acc.
Proof.
  revert acc. induction extra as [|ep extra IH]; intros acc H; [done|].
  simpl. destruct (H ep) as (p & Hp & Ht); [left|].
  assert (existsb (fun p => String.eqb (Title ep) (Title p)) perms = true)
    as ->.
  { apply existsb_exists. exists p. split; [by apply list_elem_of_In|].
    by apply String.eqb_eq. }
  simpl. apply IH. intros ep' Hep'. apply H. by right.
Qed.

Lemma merge_existing_map perms extra acc :
  merge_existing Merge perms extra acc
  = acc ++ map (fun rule => default rule (merge_first Merge rule extra)) perms.
Proof.
  revert acc. induction perms as [|rule perms IH]; intros acc; simpl.
  - by rewrite app_nil_r.
  - rewrite IH, <- app_assoc. simpl. by destruct (merge_first _ _ _).
Qed.

Lemma merge_first_other rule extra :
  (forall r, r ∈ extra -> Title r <> Title rule) ->
  merge_first Merge rule extra = None.
Proof.
  induction extra as [|r extra IH]; intros H; [done|]. simpl.
  destruct (String.eqb_spec (Title rule) (Title r)) as [Heq|_].
  - exfalso. apply (H r); [left | done].
  - apply IH. intros r' Hr'. apply H. by right.
Qed.

Lemma merge_first_self rule s :
  (forall r', Merge rule rule = Some r' -> r' = rule) ->
  NoDup (map Title s) -> rule ∈ s ->
  default rule (merge_first Merge rule s) = rule.
Proof.
  intros Hself. induction s as [|r s IH]; intros Hnd Hin.
  - by apply elem_of_nil in Hin.
  - simpl in Hnd. apply NoDup_cons in Hnd as [Hr Hnd]. simpl.
    destruct (String.eqb_spec (Title rule) (Title r)) as [Heq|Hne].
    + assert (rule = r) as <-.
      { apply elem_of_cons in Hin as [?|Hin]; [done|]. exfalso. apply Hr.
        rewrite <- Heq. apply list_elem_of_fmap. by exists rule. }
      destruct (Merge rule rule) as [r'|] eqn:Hm.
      * simpl. by apply Hself.
      * rewrite merge_first_other; [done|].
        intros r' Hr' Ht. apply Hr. rewrite <- Ht.
        apply list_elem_of_fmap. by exists r'.
    + apply IH; [done|]. apply elem_of_cons in Hin as [->|?]; done.
Qed.
End MergeFacts.

(** ** Short codes *)

Lemma foldl_pointwise {A B} (f g : A -> B -> A) a l :
  (forall a x, f a x = g a x) -> foldl f a l = foldl g a l.
Proof.
  intros H. revert a. induction l as [|x l IH]; intros a; simpl; [done|].
  by rewrite H, IH.
Qed.

Lemma patch_inner codeName (shortcodes acc : gmap string string) :
  foldl
    (fun updatedShortcodes '(shortcodeName, v) =>
       if decide (shortcodeName = codeName)
       then <[shortcodeName := v]> updatedShortcodes
       else updatedShortcodes)
    acc (map_to_list shortcodes)
  = match shortcodes !! codeName with
    | Some v => <[codeName := v]> acc
    | None => acc
    end.
Proof.
  rewrite <- (list_to_map_to_list shortcodes) at 2.
  pose proof (NoDup_fst_map_to_list shortcodes) as Hnd.
  revert acc Hnd. generalize (map_to_list shortcodes) as l.
  induction l as [|[k v] l IH]; intros acc Hnd; simpl; [done|].
  apply NoDup_cons in Hnd as [Hk Hnd]. rewrite IH by done.
  destruct (decide (k = codeName)) as [->|Hne].
  - rewrite lookup_insert_eq.
    by rewrite (not_elem_of_list_to_map_1 l codeName).
  - by rewrite lookup_insert_ne.
Qed.

Lemma patch_outer (shortcodes acc : gmap string string) names k :
  foldl
    (fun updatedShortcodes codeName =>
       match shortcodes !! codeName with
       | Some v => <[codeName := v]> updatedShortcodes
       | None => updatedShortcodes
       end) acc names !! k
  = if decide (k ∈ names)
    then match shortcodes !! k with Some v => Some v | None => acc !! k end
    else acc !! k.
Proof.
  revert acc. induction names as [|n names IH]; intros acc.
  - simpl. destruct (decide (k ∈ [])) as [Hin|_]; [|done].
    by apply elem_of_nil in Hin.
  - change (foldl ?f acc (n :: names)) with (foldl f (f acc n) names).
    rewrite IH.
    assert ((match shortcodes !! n with
             | Some v => <[n := v]> acc
             | None => acc
             end) !! k
            = if decide (k = n)
              then match shortcodes !! k with
                   | Some v => Some v
                   | None => acc !! k
                   end
              else acc !! k) as ->.
    { destruct (decide (k = n)) as [->|Hne].
      - destruct (shortcodes !! n); [by rewrite lookup_insert_eq | done].
      - destruct (shortcodes !! n); [by rewrite lookup_insert_ne | done]. }
    destruct (decide (k ∈ names)) as [Hin|Hnin];
      destruct (decide (k = n)) as [->|Hne];
      destruct (decide (_ ∈ _ :: names)) as [Hin'|Hnin'];
      try done; try (by destruct (shortcodes !! _)).
    + exfalso. apply Hnin'. by right.
    + exfalso. apply Hnin'. by right.
    + exfalso. apply Hnin'. by left.
    + apply elem_of_cons in Hin' as [?|?]; done.
Qed.

(** The short codes that are kept are those whose name has a code. *)
Lemma patch_shortcodes_lookup (codes shortcodes : gmap string string) k :
  patch_shortcodes codes shortcodes !! k
  = match codes !! k with
    | Some _ => shortcodes !! k
    | None => None
    end.
Proof.
  unfold patch_shortcodes.
  erewrite (foldl_pointwise _ _ _ (map_to_list codes).*1).
  2:{ intros acc codeName. apply patch_inner. }
  rewrite patch_outer, lookup_empty.
  destruct (codes !! k) as [c|] eqn:Hk.
  - rewrite decide_True.
    + by destruct (shortcodes !! k).
    + apply list_elem_of_fmap. exists (k, c). split; [done|].
      by apply elem_of_map_to_list.
  - rewrite decide_False; [done|].
    intros ([k' c] & -> & Hin%elem_of_map_to_list)%list_elem_of_fmap.
    simpl in Hk. congruence.
Qed.

(** ** The claims on rules, sets and permission documents *)

(** C7.  A rule whose verb set is empty grants every verb, and every verb
    set is a subset of its verb set; an empty verb set is in turn a subset
    only of the verb sets that grant every verb: it is no restriction, not
    no access. *)
Theorem VerbSet_empty_is_no_restriction (r : Rule) :
  Verbs r = ∅ ->
  (forall v, VerbSet_Contains (Verbs r) v = true)
  /\ (forall vs, VerbSet_IsSubSetOf vs (Verbs r) = true)
  /\ (forall parent,
        VerbSet_IsSubSetOf (Verbs r) parent = true ->
        forall v, VerbSet_Contains parent v = true).
Proof.
  intros ->. split; [|split].
  - apply VerbSet_Contains_empty.
  - intros vs. apply VerbSet_IsSubSetOf_spec. intros v _.
    apply VerbSet_Contains_empty.
  - intros parent H v.
    apply (proj1 (VerbSet_IsSubSetOf_spec _ _) H), VerbSet_Contains_empty.
Qed.

Lemma VerbSet_empty_is_no_restriction_witness :
  VerbSet_Contains ∅ DELETE = true
  /\ VerbSet_IsSubSetOf {[GET; POST]} ∅ = true.
Proof.
  pose proof (VerbSet_empty_is_no_restriction
                {| Title := "legacy"; Type_ := "io.cozy.contacts";
                   Verbs := ∅; Selector := ""; Values := [] |} eq_refl)
    as (Hall & Hsub & _).
  split; [exact (Hall DELETE) | exact (Hsub {[GET; POST]})].
Defined.

(** C3.  Every rule is a subset of itself. *)
Theorem Rule_isSubsetOf_refl (r : Rule) : Rule_isSubsetOf r r = true.
Proof.
  apply Rule_isSubsetOf_spec. split; [by left|].
  split; [apply VerbSet_IsSubSetOf_refl|]. split; [by right | by left].
Qed.

(** C4, as stated, fails.  No rule below has the type of files and all have
    the same title, type, verbs and selector.  The rule of [a] names the
    value [x], the rule of [b] has no values (all documents), the rule of
    [c] names the value [y]: [a] is a subset of [b] because the parent has
    no values, [b] is a subset of [c] because it has no value to look for
    in the parent, and [a] is not a subset of [c]. *)
Lemma Set_IsSubSetOf_not_transitive :
  let rule values :=
    {| Title := "contacts"; Type_ := "io.cozy.contacts"; Verbs := {[GET]};
       Selector := ""; Values := values |} in
  let a := [rule ["x"]] in
  let b := [rule []] in
  let c := [rule ["y"]] in
  Forall (fun r => Type_ r <> consts_Files) (a ++ b ++ c)
  /\ Set_IsSubSetOf a b = true
  /\ Set_IsSubSetOf b c = true
  /\ Set_IsSubSetOf a c = false.
Proof.
  split; [|by vm_compute]. repeat constructor; discriminate.
Qed.

(** C4, amended.  The subset test on sets is transitive when the first set
    has no rule of the type of files and a rule of the middle set without
    values (all documents) has no same-titled rule with values in the
    third set. *)
Theorem Set_IsSubSetOf_trans (a b c : Set_) :
  (forall r, r ∈ a -> Type_ r <> consts_Files) ->
  (forall rb rc, rb ∈ b -> rc ∈ c -> Title rb = Title rc ->
                 Values rb = [] -> Values rc = []) ->
  Set_IsSubSetOf a b = true -> Set_IsSubSetOf b c = true ->
  Set_IsSubSetOf a c = true.
Proof.
  rewrite !Set_IsSubSetOf_spec. intros Hfile Hvals Hab Hbc ra Hra.
  destruct (Hab ra Hra) as (rb & Hrb & Htab & Hsab).
  destruct (Hbc rb Hrb) as (rc & Hrc & Htbc & Hsbc).
  pose proof (Hfile ra Hra) as Hfa.
  destruct Htab as [Htab|]; [|done].
  assert (Type_ rb <> consts_Files) as Hfb.
  { apply Rule_isSubsetOf_spec in Hsab as ([Hty|] & _); [|done].
    by rewrite <- Hty. }
  destruct Htbc as [Htbc|]; [|done].
  exists rc. split; [done|]. split; [left; congruence|].
  apply (Rule_isSubsetOf_trans ra rb rc); [done| |done|done].
  by apply Hvals.
Qed.

Lemma Set_IsSubSetOf_trans_witness :
  Set_IsSubSetOf
    [{| Title := "contacts"; Type_ := "io.cozy.contacts"; Verbs := {[GET]};
        Selector := ""; Values := ["x"] |}]
    [{| Title := "contacts"; Type_ := "io.cozy.contacts"; Verbs := ∅;
        Selector := ""; Values := [] |}]
  = true.
Proof.
  apply (Set_IsSubSetOf_trans _
           [{| Title := "contacts"; Type_ := "io.cozy.contacts";
               Verbs := {[GET; POST]}; Selector := "";
               Values := ["x"; "y"] |}]).
  - intros r ->%list_elem_of_singleton. discriminate.
  - intros rb rc ->%list_elem_of_singleton _ _. discriminate.
  - by vm_compute.
  - by vm_compute.
Defined.

(** C5, as stated, fails.  Two rules of a set may have the same title.
    Merging such a set with itself merges the first rule into the second:
    the second rule of the result has the values [b] and [a], a content no
    rule of the set has. *)
Lemma MergeExtraPermissions_not_idempotent :
  let rule values :=
    {| Title := "contacts"; Type_ := "io.cozy.contacts"; Verbs := {[GET]};
       Selector := ""; Values := values |} in
  let s := [rule ["a"]; rule ["b"]] in
  MergeExtraPermissions Rule_Merge s s = [rule ["a"]; rule ["b"; "a"]]
  /\ ~ Set_equiv (MergeExtraPermissions Rule_Merge s s) s.
Proof.
  intros rule s.
  assert (MergeExtraPermissions Rule_Merge s s = [rule ["a"]; rule ["b"; "a"]])
    as Hres by (by vm_compute).
  split; [exact Hres|]. rewrite Hres. intros [Hsub _].
  destruct (Hsub (rule ["b"; "a"])) as (r' & Hr' & _ & _ & _ & _ & Hvals).
  { right. left. }
  assert ("a" ∈ Values r' /\ "b" ∈ Values r') as [Ha Hb].
  { split; apply Hvals; simpl; [right; left | left]. }
  apply elem_of_cons in Hr' as [->|Hr'].
  - simpl in Hb. by apply list_elem_of_singleton in Hb.
  - apply list_elem_of_singleton in Hr' as ->.
    simpl in Ha. by apply list_elem_of_singleton in Ha.
Qed.

(** C5, amended.  For a set in which no two rules have the same title,
    merging the set with itself gives the set back, rule by rule and in
    the same order.  The merge of two rules is any function that gives a
    rule back when it merges the rule with itself, as the union of verbs
    and values does, and it may fail. *)
Theorem MergeExtraPermissions_idempotent
    (Merge : Rule -> Rule -> option Rule) (s : Set_) :
  (forall r r', Merge r r = Some r' -> r' = r) ->
  NoDup (map Title s) ->
  MergeExtraPermissions Merge s s = s.
Proof.
  intros Hself Hnd. unfold MergeExtraPermissions.
  rewrite append_new_known by (intros ep Hep; by exists ep).
  rewrite merge_existing_map. simpl.
  transitivity (map id s); [|apply map_id]. apply map_ext_in.
  intros rule Hrule%list_elem_of_In.
  apply merge_first_self; auto.
Qed.

Lemma MergeExtraPermissions_idempotent_witness :
  let s :=
    [{| Title := "contacts"; Type_ := "io.cozy.contacts"; Verbs := {[GET]};
        Selector := ""; Values := ["a"; "b"] |};
     {| Title := "files"; Type_ := "io.cozy.files"; Verbs := ∅;
        Selector := "referenced_by"; Values := ["c"] |}] in
  MergeExtraPermissions Rule_Merge s s = s.
Proof.
  intros s. apply (MergeExtraPermissions_idempotent Rule_Merge s).
  - intros r r' H. rewrite Rule_Merge_self in H. by injection H.
  - simpl. apply NoDup_cons. split; [|apply NoDup_singleton].
    intros H%list_elem_of_singleton. discriminate H.
Defined.

(** C6.  [PatchCodes] installs the given codes and leaves a short code only
    to the names that have a code: the names with a short code are among
    the keys of [codes]. *)
Theorem PatchCodes_shortcodes_subset
    (p : Permission) (codes : gmap string string) :
  Codes (PatchCodes p codes) = codes
  /\ shortcode_names (PatchCodes p codes) ⊆ dom codes.
Proof.
  split; [done|]. unfold shortcode_names, PatchCodes. simpl.
  destruct (ShortCodes p) as [shortcodes|]; [|set_solver].
  intros k [v Hk]%elem_of_dom. rewrite patch_shortcodes_lookup in Hk.
  apply elem_of_dom. destruct (codes !! k); [done | discriminate].
Qed.

(** ** The rest of [permissions.go] *)

Lemma remove_loop_filter rule perms newperms :
  remove_loop rule perms newperms
  = newperms ++ filter (fun r => Title r <> Title rule) perms.
Proof.
  revert newperms. induction perms as [|r perms IH]; intros newperms; simpl.
  - by rewrite app_nil_r.
  - rewrite IH, filter_cons.
    destruct (String.eqb_spec (Title r) (Title rule)) as [Heq|Hne]; simpl.
    + by rewrite decide_False by (by intros H).
    + rewrite decide_True by done. by rewrite <- app_assoc.
Qed.

Lemma title_found ep perms :
  existsb (fun p => String.eqb (Title ep) (Title p)) perms
  = bool_decide (Title ep ∈ map Title perms).
Proof.
  induction perms as [|p perms IH]; simpl; [done|]. rewrite IH.
  destruct (String.eqb_spec (Title ep) (Title p)) as [Heq|Hne]; simpl.
  - symmetry. apply bool_decide_eq_true_2. rewrite Heq. left.
  - apply bool_decide_ext. rewrite elem_of_cons. tauto.
Qed.

Lemma append_new_filter perms extra acc :
  append_new perms extra acc
  = acc ++ filter (fun ep => Title ep ∉ map Title perms) extra.
Proof.
  revert acc. induction extra as [|ep extra IH]; intros acc; simpl.
  - by rewrite app_nil_r.
  - rewrite IH, title_found, filter_cons.
    destruct (decide (Title ep ∈ map Title perms)) as [Hin|Hnin].
    + rewrite bool_decide_eq_true_2 by done. simpl.
      by rewrite decide_False by (by intros H).
    + rewrite bool_decide_eq_false_2 by done. simpl.
      rewrite decide_True by done. by rewrite <- app_assoc.
Qed.

Lemma merge_first_title Merge rule extra merged :
  (forall r r2 m, Merge r r2 = Some m -> Title m = Title r) ->
  merge_first Merge rule extra = Some merged -> Title merged = Title rule.
Proof.
  intros Hkeep. induction extra as [|r extra IH]; simpl; [done|].
  destruct (String.eqb (Title rule) (Title r)); [|done].
  destruct (Merge rule r) as [m|] eqn:Hm; [|done].
  intros [= <-]. by apply (Hkeep rule r).
Qed.

Lemma find_code_lookup value (codes : gmap string string) :
  find_code value (map_to_list codes) = codes !! value.
Proof.
  rewrite <- (list_to_map_to_list codes) at 2.
  generalize (map_to_list codes) as l.
  induction l as [|[mail code] l IH]; simpl; [by rewrite lookup_empty|].
  destruct (String.eqb_spec mail value) as [->|Hne].
  - by rewrite lookup_insert_eq.
  - by rewrite lookup_insert_ne.
Qed.

Lemma Expired_false time_Parse_RFC3339 now perm :
  Expired time_Parse_RFC3339 now perm = false ->
  ExpiresAt perm = None
  \/ exists expiresAt at_,
       ExpiresAt perm = Some expiresAt /\ expiresAt <> ""
       /\ time_Parse_RFC3339 expiresAt = Some at_ /\ now <= at_.
Proof.
  unfold Expired. destruct (ExpiresAt perm) as [expiresAt|]; [|by left].
  destruct (String.eqb_spec expiresAt "") as [|Hne]; simpl; [done|].
  destruct (time_Parse_RFC3339 expiresAt) as [at_|] eqn:Hparse; [|done].
  intros Hlt%Z.ltb_ge. right. by exists expiresAt, at_.
Qed.

Lemma check_writable_None MatchType CheckWritable set :
  check_writable MatchType CheckWritable set = None <->
  forall rule, rule ∈ set ->
    MatchType rule consts_Files = true \/ CheckWritable (Type_ rule) = true.
Proof.
  induction set as [|rule set IH]; simpl.
  - split; [|done]. intros _ rule Hin. by apply elem_of_nil in Hin.
  - destruct (MatchType rule consts_Files) eqn:Hm.
    + rewrite IH. split.
      * intros H r [->|Hr]%elem_of_cons; [by left | by apply H].
      * intros H r Hr. apply H. by right.
    + destruct (CheckWritable (Type_ rule)) eqn:Hw; simpl.
      * rewrite IH. split.
        -- intros H r [->|Hr]%elem_of_cons; [by right | by apply H].
        -- intros H r Hr. apply H. by right.
      * split; [done|]. intros H.
        destruct (H rule) as [?|?]; [left | congruence | congruence].
Qed.

Lemma check_writable_error MatchType CheckWritable set err :
  check_writable MatchType CheckWritable set = Some err ->
  exists doctype, err = NotWritable doctype.
Proof.
  induction set as [|rule set IH]; simpl; [done|].
  destruct (MatchType rule consts_Files); [done|].
  destruct (CheckWritable (Type_ rule)); simpl; [done|].
  intros [= <-]. by exists (Type_ rule).
Qed.

(** X15.  [PatchCodes] keeps, of the short codes, exactly those whose name
    has a code in the new codes, each with the value it had; a document
    without short codes stays without. *)
Theorem PatchCodes_keeps_coded_shortcodes
    (p : Permission) (codes : gmap string string) :
  ShortCodes (PatchCodes p codes)
  = filter (fun entry => entry.1 ∈ dom codes) <$> ShortCodes p.
Proof.
  unfold PatchCodes. simpl. destruct (ShortCodes p) as [shortcodes|]; [|done].
  simpl. f_equal. apply map_eq. intros k.
  rewrite patch_shortcodes_lookup, map_lookup_filter.
  destruct (shortcodes !! k) as [v|] eqn:Hk; simpl.
  - destruct (codes !! k) as [c|] eqn:Hc.
    + rewrite option_guard_True; [done|]. simpl. apply elem_of_dom. by exists c.
    + rewrite option_guard_False; [done|]. simpl.
      by intros [c' Hc']%elem_of_dom; congruence.
  - by destruct (codes !! k).
Qed.

(** X16.  A short code that [PatchCodes] has dropped does not come back:
    when a name has no code in a first patch, it has no short code after
    any later patch, even one that gives the name a code again. *)
Theorem PatchCodes_dropped_shortcode_not_restored
    (p : Permission) (codes1 codes2 : gmap string string) (name : string) :
  codes1 !! name = None ->
  name ∉ shortcode_names (PatchCodes (PatchCodes p codes1) codes2).
Proof.
  intros Hnone. unfold shortcode_names, PatchCodes. simpl.
  destruct (ShortCodes p) as [shortcodes|]; [|set_solver].
  intros [v Hv]%elem_of_dom. rewrite !patch_shortcodes_lookup, Hnone in Hv.
  by destruct (codes2 !! name).
Qed.

Lemma PatchCodes_dropped_shortcode_not_restored_witness :
  let p := {| PID := "p1"; PRev := "1-a"; PermType := TypeShareByLink;
              SourceID := "io.cozy.apps/drive"; Permissions := [];
              ExpiresAt := None;
              Codes := {[ "bob" := "token-1" ]};
              ShortCodes := Some {[ "bob" := "abc123" ]};
              Password := None |} in
  "bob" ∉ shortcode_names (PatchCodes (PatchCodes p ∅) {[ "bob" := "token-2" ]}).
Proof.
  intros p.
  apply (PatchCodes_dropped_shortcode_not_restored p ∅ {[ "bob" := "token-2" ]}).
  apply lookup_empty.
Defined.

(** X17.  [RemoveRule] compares titles only: it removes every rule that has
    the title of the given rule, whatever the rest of the rule, and keeps
    the other rules in their order; nothing else of the document
    changes. *)
Theorem RemoveRule_removes_by_title (p : Permission) (rule : Rule) :
  RemoveRule p rule
  = set_Permissions p
      (filter (fun r => Title r <> Title rule) (Permissions p)).
Proof. unfold RemoveRule. by rewrite remove_loop_filter. Qed.

(** X18.  Adding a rule whose title no rule of the document has, and
    removing it again, gives the document back. *)
Theorem AddRules_then_RemoveRule (p : Permission) (rule : Rule) :
  (forall r, r ∈ Permissions p -> Title r <> Title rule) ->
  RemoveRule (AddRules p [rule]) rule = p.
Proof.
  intros Hfresh. unfold RemoveRule, AddRules, set_Permissions.
  destruct p as [id rev ty src perms ex codes sc pw]. simpl in *. f_equal.
  rewrite remove_loop_filter, filter_app, filter_cons, filter_nil. simpl.
  rewrite decide_False by (by intros H). rewrite app_nil_r.
  induction perms as [|r perms IH]; [done|].
  rewrite filter_cons, decide_True by (apply Hfresh; left).
  f_equal. apply IH. intros r' Hr'. apply Hfresh. by right.
Qed.

Lemma AddRules_then_RemoveRule_witness :
  let rule title :=
    {| Title := title; Type_ := "io.cozy.contacts"; Verbs := {[GET]};
       Selector := ""; Values := [] |} in
  let p := {| PID := "p1"; PRev := "1-a"; PermType := TypeWebapp;
              SourceID := "io.cozy.apps/drive";
              Permissions := [rule "contacts"; rule "groups"];
              ExpiresAt := None; Codes := ∅; ShortCodes := None;
              Password := None |} in
  RemoveRule (AddRules p [rule "extra"]) (rule "extra") = p.
Proof.
  intros rule p. apply (AddRules_then_RemoveRule p (rule "extra")).
  intros r Hr. simpl in Hr.
  apply elem_of_cons in Hr as [->|Hr]; [discriminate|].
  apply list_elem_of_singleton in Hr as ->. discriminate.
Defined.

(** X19.  The result of [MergeExtraPermissions] is made of the extra rules
    whose title no rule of [perms] has, in their order, followed by the
    rules of [perms] in their order, each one replaced by its merge with
    the first same-titled extra rule it merges with.  A rule that merges
    with none is kept as it is: an error of the merge is never
    returned. *)
Theorem MergeExtraPermissions_new_rules_then_merged
    (Merge : Rule -> Rule -> option Rule) (perms extraPermissions : Set_) :
  MergeExtraPermissions Merge perms extraPermissions
  = filter (fun ep => Title ep ∉ map Title perms) extraPermissions
    ++ map (fun rule =>
              default rule (merge_first Merge rule extraPermissions))
           perms.
Proof.
  unfold MergeExtraPermissions.
  by rewrite merge_existing_map, append_new_filter.
Qed.

(** X20.  When the merge of two rules keeps the title of the first one,
    [MergeExtraPermissions] loses no title and adds none: the titles of
    its result are the titles of the extra rules that [perms] does not
    have, followed by the titles of [perms]. *)
Theorem MergeExtraPermissions_titles
    (Merge : Rule -> Rule -> option Rule) (perms extraPermissions : Set_) :
  (forall r r2 m, Merge r r2 = Some m -> Title m = Title r) ->
  map Title (MergeExtraPermissions Merge perms extraPermissions)
  = filter (fun title => title ∉ map Title perms)
           (map Title extraPermissions)
    ++ map Title perms.
Proof.
  intros Hkeep. unfold MergeExtraPermissions.
  rewrite merge_existing_map, append_new_filter, map_app, map_map. simpl.
  f_equal.
  - induction extraPermissions as [|ep extra IH]; [done|]. simpl.
    rewrite !filter_cons.
    destruct (decide (Title ep ∉ map Title perms)); simpl; by rewrite IH.
  - apply map_ext. intros rule.
    destruct (merge_first Merge rule extraPermissions) as [m|] eqn:Hm;
      [|done].
    simpl. by apply (merge_first_title Merge rule extraPermissions).
Qed.

Lemma MergeExtraPermissions_titles_witness :
  let rule title values :=
    {| Title := title; Type_ := "io.cozy.contacts"; Verbs := {[GET]};
       Selector := ""; Values := values |} in
  map Title
    (MergeExtraPermissions Rule_Merge
       [rule "contacts" ["a"]; rule "groups" []]
       [rule "files" []; rule "contacts" ["b"]])
  = ["files"; "contacts"; "groups"].
Proof.
  intros rule.
  apply (MergeExtraPermissions_titles Rule_Merge
           [rule "contacts" ["a"]; rule "groups" []]
           [rule "files" []; rule "contacts" ["b"]]).
  by intros r r2 m [= <-].
Defined.

(** X21.  [checkSetPermissions] accepts a set exactly when the parent is
    the document of an application, a konnector, an OAuth client or the
    command line, the set is a subset of the rules of the parent, and
    every rule of the set is on files or on a writable doctype. *)
Theorem checkSetPermissions_accepts
    (IsSubSetOf : Set_ -> Set_ -> bool) (MatchType : Rule -> string -> bool)
    (CheckWritable : string -> bool) (set : Set_) (parent : Permission) :
  checkSetPermissions IsSubSetOf MatchType CheckWritable set parent = None
  <->
  PermType parent ∈ [TypeWebapp; TypeKonnector; TypeOauth; TypeCLI]
  /\ IsSubSetOf set (Permissions parent) = true
  /\ (forall rule, rule ∈ set ->
        MatchType rule consts_Files = true
        \/ CheckWritable (Type_ rule) = true).
Proof.
  unfold checkSetPermissions.
  rewrite <- (check_writable_None MatchType CheckWritable set).
  rewrite !elem_of_cons, elem_of_nil.
  destruct (String.eqb_spec (PermType parent) TypeWebapp);
    destruct (String.eqb_spec (PermType parent) TypeKonnector);
    destruct (String.eqb_spec (PermType parent) TypeOauth);
    destruct (String.eqb_spec (PermType parent) TypeCLI); simpl;
    destruct (IsSubSetOf set (Permissions parent)); simpl;
    intuition congruence.
Qed.

(** X22.  Whoever may update a share by link may also create a subset of
    its own rules: when [CanUpdateShareByLink] holds for a document, the
    child is a share by link and [checkSetPermissions] does not refuse the
    document as a parent for its type. *)
Theorem CanUpdateShareByLink_parent_can_create
    (IsSubSetOf : Set_ -> Set_ -> bool) (MatchType : Rule -> string -> bool)
    (CheckWritable : string -> bool) (set : Set_) (p child : Permission) :
  CanUpdateShareByLink IsSubSetOf p child = true ->
  PermType child = TypeShareByLink
  /\ checkSetPermissions IsSubSetOf MatchType CheckWritable set p
     <> Some ErrOnlyAppCanCreateSubSet.
Proof.
  unfold CanUpdateShareByLink, checkSetPermissions.
  destruct (String.eqb_spec (PermType child) TypeShareByLink); simpl; [|done].
  intros H. split; [done|].
  assert (String.eqb (PermType p) TypeWebapp = true
          \/ String.eqb (PermType p) TypeOauth = true) as Htype.
  { destruct (String.eqb (PermType p) TypeWebapp); [by left|].
    destruct (String.eqb (PermType p) TypeOauth); [by right | done]. }
  assert (negb (String.eqb (PermType p) TypeWebapp)
          && negb (String.eqb (PermType p) TypeKonnector)
          && negb (String.eqb (PermType p) TypeOauth)
          && negb (String.eqb (PermType p) TypeCLI) = false) as ->.
  { destruct Htype as [-> | ->]; simpl; by rewrite ?andb_false_r. }
  destruct (IsSubSetOf set (Permissions p)); simpl; [|done].
  intros [doctype Herr]%check_writable_error. done.
Qed.

Lemma CanUpdateShareByLink_parent_can_create_witness :
  let doc type source :=
    {| PID := "p1"; PRev := "1-a"; PermType := type; SourceID := source;
       Permissions := []; ExpiresAt := None; Codes := ∅; ShortCodes := None;
       Password := None |} in
  PermType (doc TypeShareByLink "io.cozy.apps/drive") = TypeShareByLink
  /\ checkSetPermissions (fun _ _ => true) (fun _ _ => false) (fun _ => true)
       [] (doc TypeWebapp "io.cozy.apps/drive")
     <> Some ErrOnlyAppCanCreateSubSet.
Proof.
  intros doc.
  apply (CanUpdateShareByLink_parent_can_create
           (fun _ _ => true) (fun _ _ => false) (fun _ => true) []
           (doc TypeWebapp "io.cozy.apps/drive")
           (doc TypeShareByLink "io.cozy.apps/drive")).
  reflexivity.
Defined.

(** X23.  [GetByID], [getFromSource] and [GetForShareCode], the three
    reads that call [Expired], return no expired document: a document
    that one of them returns has no expiry date, or a non-empty one that
    parses as a time that is not before now.  A date that is empty or
    does not parse counts as expired. *)
Theorem read_paths_reject_expired
    (time_Parse_RFC3339 : string -> option Z) (now : Z)
    (IsDevRelease : bool) (consts_Sharings : string)
    (docExists : string -> string -> bool)
    (doc : option Permission) (first second : option (list Permission))
    (view : option (list ViewRow)) (perm : Permission) :
  GetByID time_Parse_RFC3339 now doc = inl perm
  \/ (getFromSource time_Parse_RFC3339 now first second).1 = inl perm
  \/ GetForShareCode time_Parse_RFC3339 now IsDevRelease consts_Sharings
       docExists view = inl perm ->
  ExpiresAt perm = None
  \/ exists expiresAt at_,
       ExpiresAt perm = Some expiresAt /\ expiresAt <> ""
       /\ time_Parse_RFC3339 expiresAt = Some at_ /\ now <= at_.
Proof.
  intros H. apply (Expired_false time_Parse_RFC3339 now).
  destruct H as [H|[H|H]].
  - unfold GetByID in H. destruct doc as [perm'|]; [|done].
    destruct (Expired _ _ perm') eqn:He; [done|]. by injection H as <-.
  - unfold getFromSource in H.
    assert (forall res : list Permission,
              match res with
              | [] => inr NotFound
              | perm' :: _ =>
                  if Expired time_Parse_RFC3339 now perm'
                  then inr ErrExpiredToken else inl perm'
              end = inl perm ->
              Expired time_Parse_RFC3339 now perm = false) as Hfinish.
    { intros [|perm' res]; [done|].
      destruct (Expired _ _ perm') eqn:He; [done|]. by intros [= <-]. }
    destruct first as [res|]; [by apply (Hfinish res)|].
    destruct second as [res|]; [by apply (Hfinish res) | done].
  - unfold GetForShareCode in H.
    destruct view as [[|row [|row' rows]]|]; try done.
    destruct (Row_Doc row) as [perm'|]; [|done].
    destruct (Expired _ _ perm') eqn:He; [done|].
    destruct (negb IsDevRelease); [|by injection H as <-].
    destruct (GoStrings.SplitN2 _ _) as [|part0 [|part1 [|? ?]]];
      try (by injection H as <-).
    destruct (docExists _ _); [by injection H as <- | done].
Qed.

Lemma read_paths_reject_expired_witness :
  let parse (s : string) :=
    if String.eqb s "2030-01-01T00:00:00Z" then Some 1893456000 else None in
  let perm := {| PID := "p1"; PRev := "1-a"; PermType := TypeShareByLink;
                 SourceID := "io.cozy.apps/drive"; Permissions := [];
                 ExpiresAt := Some "2030-01-01T00:00:00Z";
                 Codes := ∅; ShortCodes := None; Password := None |} in
  ExpiresAt perm = None
  \/ exists expiresAt at_,
       ExpiresAt perm = Some expiresAt /\ expiresAt <> ""
       /\ parse expiresAt = Some at_ /\ 1793664000 <= at_.
Proof.
  intros parse perm.
  apply (read_paths_reject_expired parse 1793664000 false "io.cozy.sharings"
           (fun _ _ => true) (Some perm) None None None perm).
  left. reflexivity.
Defined.

(** X24.  For a view of one row whose document decodes,
    [GetTokenAndPermissionsFromShortcode] returns the code that the
    document has under the value of the row, with the document, and fails
    when there is none; the order in which the codes are visited does not
    matter, and the expiry date of the document is not looked at. *)
Theorem shortcode_token_is_code_of_row_value
    (row : ViewRow) (perm : Permission) :
  Row_Doc row = Some perm ->
  GetTokenAndPermissionsFromShortcode (Some [row])
  = match Codes perm !! Row_Value row with
    | Some code => inl (code, perm)
    | None => inr NoToken
    end.
Proof.
  intros Hdoc. unfold GetTokenAndPermissionsFromShortcode.
  by rewrite Hdoc, find_code_lookup.
Qed.

Lemma shortcode_token_is_code_of_row_value_witness :
  let perm := {| PID := "p1"; PRev := "1-a"; PermType := TypeShareByLink;
                 SourceID := "io.cozy.apps/drive"; Permissions := [];
                 ExpiresAt := Some "";
                 Codes := {[ "alice" := "token-a"; "bob" := "token-b" ]};
                 ShortCodes := Some {[ "bob" := "abc123" ]};
                 Password := None |} in
  let row := {| Row_Key := "abc123"; Row_Value := "bob";
                Row_Doc := Some perm |} in
  GetTokenAndPermissionsFromShortcode (Some [row]) = inl ("token-b", perm).
Proof.
  intros perm row.
  exact (shortcode_token_is_code_of_row_value row perm eq_refl).
Defined.

(** X25.  Outside of a development release, the document that
    [GetForShareCode] returns has a source that is still there: when its
    source is a doctype and an identifier separated by a slash, the
    document of that doctype was found, under the identifier alone for a
    sharing and under the whole source otherwise. *)
Theorem GetForShareCode_source_exists
    (time_Parse_RFC3339 : string -> option Z) (now : Z)
    (consts_Sharings : string) (docExists : string -> string -> bool)
    (view : option (list ViewRow)) (perm : Permission)
    (doctype id : string) :
  GetForShareCode time_Parse_RFC3339 now false consts_Sharings docExists view
  = inl perm ->
  GoStrings.byte_free "/" doctype ->
  SourceID perm = doctype +:+ "/" +:+ id ->
  docExists doctype
    (if String.eqb doctype consts_Sharings then id else SourceID perm)
  = true.
Proof.
  intros H Hfree Hsrc.
  assert (GoStrings.SplitN2 (SourceID perm) "/" = [doctype; id]) as Hsplit.
  { rewrite Hsrc. by apply GoStringsFacts.SplitN2_found. }
  unfold GetForShareCode in H.
  destruct view as [[|row [|row' rows]]|]; try done.
  destruct (Row_Doc row) as [perm'|]; [|done].
  destruct (Expired _ _ perm') eqn:He; [done|]. simpl in H.
  assert (perm' = perm) as ->.
  { destruct (GoStrings.SplitN2 _ _) as [|p0 [|p1 [|? ?]]]; try congruence.
    destruct (docExists _ _); congruence. }
  rewrite Hsplit in H. rewrite Hsrc.
  by destruct (docExists doctype _) eqn:Hex.
Qed.

Lemma GetForShareCode_source_exists_witness :
  let perm := {| PID := "p1"; PRev := "1-a"; PermType := TypeShareByLink;
                 SourceID := "io.cozy.apps/drive"; Permissions := [];
                 ExpiresAt := None; Codes := {[ "bob" := "token-b" ]};
                 ShortCodes := None; Password := None |} in
  let docExists doctype id :=
    String.eqb doctype "io.cozy.apps"
    && String.eqb id "io.cozy.apps/drive" in
  docExists "io.cozy.apps"
    (if String.eqb "io.cozy.apps" "io.cozy.sharings" then "drive"
     else SourceID perm)
  = true.
Proof.
  intros perm docExists.
  apply (GetForShareCode_source_exists (fun _ => None) 0 "io.cozy.sharings"
           docExists
           (Some [{| Row_Key := "token-b"; Row_Value := "bob";
                     Row_Doc := Some perm |}])
           perm "io.cozy.apps" "drive").
  - reflexivity.
  - apply GoStringsFacts.IndexByte_free. reflexivity.
  - reflexivity.
Defined.

End PermissionFacts.

(* ===================================================================== *)
(** * Sessions *)
(* ===================================================================== *)

Module SessionFacts.
Import Session.

(** A missing session is an invalid identifier. *)
Lemma Get_missing w id :
  faults w (requests w) = false -> docs w !! id = None ->
  (Get id w).1 = inr ErrInvalidID.
Proof.
  intros Hf Hd. unfold Get, bind, couchdb_GetDoc, bind, request, get_docs, ret.
  simpl. rewrite Hf. simpl. by rewrite Hd.
Qed.

(** What [Get] does with a session that is too old. *)
Lemma Get_too_old w id s :
  faults w (requests w) = false ->
  docs w !! id = Some s -> DocID s = id ->
  LastSeen s + SessionMaxAge < clock w (readings w) ->
  Get id w
  = (inr ErrExpired,
     {| docs := if faults w (S (requests w)) then docs w
                else delete id (docs w);
        faults := faults w;
        revs := revs w;
        requests := S (S (requests w));
        clock := clock w;
        readings := S (readings w);
        trace :=
          trace w
          ++ [GetDoc id;
              Lock ("sessions/" +:+ id);
              DeleteDoc id;
              if faults w (S (requests w))
              then Warnf "loginaudit" "Failed to delete expired session"
              else Infof "loginaudit" ("Expired session deleted: " +:+ id);
              Unlock ("sessions/" +:+ id)] |}).
Proof.
  intros Hf Hd Hid Hold.
  unfold Get, bind, couchdb_GetDoc, bind, request, get_docs, ret. simpl.
  rewrite Hf. simpl. rewrite Hd.
  unfold OlderThan, bind, time_Now, ret. simpl.
  rewrite (proj2 (Z.ltb_lt _ _) Hold).
  unfold lockSession, unlockSession, couchdb_DeleteDoc, emit, bind, request,
    get_docs, put_docs, ret. simpl.
  rewrite Hid.
  destruct (faults w (S (requests w))); simpl.
  - by rewrite <- !app_assoc.
  - rewrite Hd. simpl. by rewrite <- !app_assoc.
Qed.

(** ** The claim on expired sessions *)

(** C2, as stated, fails.  The session below was last seen 31 days before
    the clock reading, and the database answers the fetch but fails the
    deletion (its second request).  [Get] returns [ErrExpired], the
    document is still stored, and a second [Get] on the same identifier
    returns [ErrExpired] again, not [ErrInvalidID]. *)
Lemma Get_expired_deletion_fails :
  let s := {| DocID := "sid"; DocRev := "1-a"; CreatedAt := 0; LastSeen := 0;
              LongRun := false; ShortRun := false; SID := "" |} in
  let w := {| docs := {["sid" := s]}; faults := fun n => Nat.eqb n 1;
              revs := fun _ => "2-b";
              requests := 0; clock := fun _ => 31 * 24 * Hour; readings := 0;
              trace := [] |} in
  LastSeen s + SessionMaxAge < clock w (readings w)
  /\ (Get "sid" w).1 = inr ErrExpired
  /\ docs (Get "sid" w).2 !! "sid" = Some s
  /\ (Get "sid" (Get "sid" w).2).1 = inr ErrExpired.
Proof.
  intros s w. split; [by vm_compute|].
  assert (Get "sid" w
          = (inr ErrExpired,
             {| docs := {["sid" := s]}; faults := fun n => Nat.eqb n 1;
                revs := fun _ => "2-b";
                requests := 2; clock := fun _ => 31 * 24 * Hour;
                readings := 1;
                trace := [GetDoc "sid"; Lock "sessions/sid";
                          DeleteDoc "sid";
                          Warnf "loginaudit" "Failed to delete expired session";
                          Unlock "sessions/sid"] |})) as ->.
  { rewrite (Get_too_old w "sid" s);
      [reflexivity | reflexivity | apply lookup_singleton_eq | reflexivity
      | by vm_compute]. }
  split; [done|]. split; [apply lookup_singleton_eq|].
  erewrite Get_too_old;
    [reflexivity | reflexivity | apply lookup_singleton_eq | reflexivity
    | by vm_compute].
Qed.

(** C2, amended.  For a stored session last seen more than 30 days before
    the clock reading, whose fetch the database answers, [Get] never
    returns the session: it returns [ErrExpired], and under the lock of the
    session it asks the database to delete the document: after the fetch
    it takes the lock, makes the request to delete, logs one line and
    releases the lock, in this order and nothing else.  When the deletion
    succeeds the document is gone, and the next [Get] on the same
    identifier, if its fetch is answered, returns [ErrInvalidID].  When the
    deletion fails the database is left as it was and the failure is
    logged. *)
Theorem Get_expired_session (w : World) (id : string) (s : Session) :
  docs w !! id = Some s -> DocID s = id ->
  faults w (requests w) = false ->
  LastSeen s + SessionMaxAge < clock w (readings w) ->
  (Get id w).1 = inr ErrExpired
  /\ trace (Get id w).2
     = trace w
       ++ [GetDoc id;
           Lock ("sessions/" +:+ id);
           DeleteDoc id;
           if faults w (S (requests w))
           then Warnf "loginaudit" "Failed to delete expired session"
           else Infof "loginaudit" ("Expired session deleted: " +:+ id);
           Unlock ("sessions/" +:+ id)]
  /\ (faults w (S (requests w)) = false ->
      docs (Get id w).2 = delete id (docs w)
      /\ (faults w (S (S (requests w))) = false ->
          (Get id (Get id w).2).1 = inr ErrInvalidID))
  /\ (faults w (S (requests w)) = true ->
      docs (Get id w).2 = docs w
      /\ Warnf "loginaudit" "Failed to delete expired session"
           ∈ trace (Get id w).2).
Proof.
  intros Hd Hid Hf Hold. rewrite (Get_too_old w id s Hf Hd Hid Hold).
  split; [done|]. split; [done|].
  split; intros Hdel; simpl; rewrite Hdel.
  - split; [done|]. intros Hnext. apply Get_missing; simpl.
    + done.
    + apply lookup_delete_eq.
  - split; [done|]. apply elem_of_app. right. do 3 right. left.
Qed.

Lemma Get_expired_session_witness :
  let s := {| DocID := "sid"; DocRev := "1-a"; CreatedAt := 0; LastSeen := 0;
              LongRun := true; ShortRun := false; SID := "" |} in
  let w := {| docs := {["sid" := s]}; faults := fun _ => false;
              revs := fun _ => "2-b";
              requests := 0; clock := fun _ => 31 * 24 * Hour; readings := 0;
              trace := [] |} in
  (Get "sid" w).1 = inr ErrExpired
  /\ (Get "sid" (Get "sid" w).2).1 = inr ErrInvalidID.
Proof.
  intros s w.
  destruct (Get_expired_session w "sid" s) as (Hexp & _ & Hdel & _).
  - apply lookup_singleton_eq.
  - reflexivity.
  - reflexivity.
  - by vm_compute.
  - split; [exact Hexp|]. by apply Hdel.
Defined.

(** ** More on [Get] *)

(** Unfold a run of [Get] down to the tests it makes. *)
Ltac run_Get :=
  unfold Get, couchdb_GetDoc, couchdb_DeleteDoc, couchdb_UpdateDoc, OlderThan,
    lockSession, unlockSession, time_Now, emit, request, get_docs, put_docs,
    bind, ret; simpl.

Lemma set_LastSeen_back s t : set_LastSeen (set_LastSeen s t) (LastSeen s) = s.
Proof. by destruct s. Qed.

(** What [Get] does with a session seen in the last 24 hours. *)
Lemma Get_recent w id s :
  faults w (requests w) = false ->
  docs w !! id = Some s ->
  clock w (readings w) <= LastSeen s + SessionMaxAge ->
  clock w (S (readings w)) <= LastSeen s + 24 * Hour ->
  Get id w
  = (inl s,
     {| docs := docs w; faults := faults w; revs := revs w;
        requests := S (requests w);
        clock := clock w; readings := S (S (readings w));
        trace := trace w ++ [GetDoc id] |}).
Proof.
  intros Hf Hd H1 H2. run_Get. rewrite Hf. simpl. rewrite Hd. simpl.
  rewrite (proj2 (Z.ltb_ge _ _) H1). simpl.
  by rewrite (proj2 (Z.ltb_ge _ _) H2).
Qed.

(** What [Get] does with a session not seen for more than 24 hours. *)
Lemma Get_stale w id s :
  faults w (requests w) = false ->
  docs w !! id = Some s -> DocID s = id ->
  clock w (readings w) <= LastSeen s + SessionMaxAge ->
  LastSeen s + 24 * Hour < clock w (S (readings w)) ->
  let refreshed :=
    SetRev (set_LastSeen s (clock w (S (S (readings w)))))
      (revs w (S (requests w))) in
  let failed := faults w (S (requests w)) in
  Get id w
  = (inl (if failed then s else refreshed),
     {| docs := if failed then docs w else <[id := refreshed]> (docs w);
        faults := faults w; revs := revs w;
        requests := S (S (requests w));
        clock := clock w; readings := S (S (S (readings w)));
        trace := trace w ++ [GetDoc id;
                             Lock ("sessions/" +:+ id);
                             UpdateDoc id;
                             Unlock ("sessions/" +:+ id)] |}).
Proof.
  intros Hf Hd Hid H1 H2 refreshed failed. subst refreshed failed.
  run_Get. rewrite Hf. simpl. rewrite Hd. simpl.
  rewrite (proj2 (Z.ltb_ge _ _) H1). simpl.
  rewrite (proj2 (Z.ltb_lt _ _) H2). simpl. rewrite Hid.
  destruct (faults w (S (requests w))); simpl.
  - by rewrite set_LastSeen_back, <- !app_assoc.
  - rewrite Hd. simpl. by rewrite <- !app_assoc.
Qed.

Lemma well_keyed_singleton k s : DocID s = k -> well_keyed {[k := s]}.
Proof. intros Hk k' s' [<- <-]%lookup_singleton_Some. exact Hk. Qed.

Lemma well_keyed_insert k s d :
  DocID s = k -> well_keyed d -> well_keyed (<[k := s]> d).
Proof.
  intros Hk Hd k' s' [[<- <-]|[_ H]]%lookup_insert_Some; [done|by apply Hd].
Qed.

(** What [Get] does when the fetch fails or finds nothing. *)
Lemma Get_unanswered w id :
  faults w (requests w) = true \/ docs w !! id = None ->
  Get id w
  = (inr (if faults w (requests w) then ErrCouch else ErrInvalidID),
     {| docs := docs w; faults := faults w; revs := revs w;
        requests := S (requests w);
        clock := clock w; readings := readings w;
        trace := trace w ++ [GetDoc id] |}).
Proof.
  intros H. run_Get. destruct (faults w (requests w)); simpl; [done|].
  destruct H as [?|Hd]; [done|]. by rewrite Hd.
Qed.

(** The five ways a run of [Get] can go, for a store keyed by the
    identifiers. *)
Lemma Get_cases w id :
  well_keyed (docs w) ->
  (faults w (requests w) = true \/ docs w !! id = None)
  \/ exists s,
       faults w (requests w) = false /\ docs w !! id = Some s /\ DocID s = id
       /\ (LastSeen s + SessionMaxAge < clock w (readings w)
           \/ (clock w (readings w) <= LastSeen s + SessionMaxAge
               /\ clock w (S (readings w)) <= LastSeen s + 24 * Hour)
           \/ (clock w (readings w) <= LastSeen s + SessionMaxAge
               /\ LastSeen s + 24 * Hour < clock w (S (readings w)))).
Proof.
  intros Hwk. destruct (faults w (requests w)) eqn:Hf; [by left; left|].
  destruct (docs w !! id) as [s|] eqn:Hd; [|by left; right].
  right. exists s. split; [done|]. split; [done|]. split; [by apply Hwk|].
  lia.
Qed.

(** X1.  [Get] returns a session only when it is stored under the
    identifier and was seen in the last 30 days at the first reading of the
    clock.  The session returned is the one the store holds under the
    identifier when [Get] returns: the stored one as it was, or, after the
    refresh of a session not seen for more than 24 hours, the stored one
    with [LastSeen] set to the reading of the clock taken for the refresh
    and with the revision that the database gave to the update. *)
Theorem Get_returns_stored_session (w : World) (id : string) (s' : Session) :
  well_keyed (docs w) ->
  (Get id w).1 = inl s' ->
  exists s,
    docs w !! id = Some s
    /\ clock w (readings w) <= LastSeen s + SessionMaxAge
    /\ docs (Get id w).2 !! id = Some s'
    /\ (s' = s
        \/ (s' = SetRev (set_LastSeen s (clock w (S (S (readings w)))))
                   (revs w (S (requests w)))
            /\ LastSeen s + 24 * Hour < clock w (S (readings w)))).
Proof.
  intros Hwk Hres.
  destruct (Get_cases w id Hwk)
    as [Hno|(s & Hf & Hd & Hid & [Hold|[[H1 H2]|[H1 H2]]])].
  - rewrite (Get_unanswered w id Hno) in Hres. discriminate Hres.
  - rewrite (Get_too_old w id s Hf Hd Hid Hold) in Hres. discriminate Hres.
  - rewrite (Get_recent w id s Hf Hd H1 H2) in Hres |- *.
    injection Hres as <-. exists s. auto.
  - rewrite (Get_stale w id s Hf Hd Hid H1 H2) in Hres |- *. simpl in *.
    injection Hres as <-. exists s. split; [done|]. split; [done|].
    destruct (faults w (S (requests w))); [auto|].
    split; [apply lookup_insert_eq | auto].
Qed.

Lemma Get_returns_stored_session_witness :
  let s := {| DocID := "sid"; DocRev := "1-a"; CreatedAt := 0; LastSeen := 0;
              LongRun := false; ShortRun := false; SID := "" |} in
  let s' := {| DocID := "sid"; DocRev := "2-b"; CreatedAt := 0;
               LastSeen := 25 * Hour; LongRun := false; ShortRun := false;
               SID := "" |} in
  let w := {| docs := {["sid" := s]}; faults := fun _ => false;
              revs := fun _ => "2-b";
              requests := 0; clock := fun _ => 25 * Hour; readings := 0;
              trace := [] |} in
  exists s0,
    docs w !! "sid" = Some s0
    /\ clock w (readings w) <= LastSeen s0 + SessionMaxAge
    /\ docs (Get "sid" w).2 !! "sid" = Some s'
    /\ (s' = s0
        \/ (s' = SetRev (set_LastSeen s0 (clock w (S (S (readings w)))))
                   (revs w (S (requests w)))
            /\ LastSeen s0 + 24 * Hour < clock w (S (readings w)))).
Proof.
  intros s s' w.
  apply (Get_returns_stored_session w "sid" s').
  - by apply (well_keyed_singleton "sid" s).
  - by vm_compute.
Defined.

(** X2.  A session not seen for more than 24 hours, and for at most 30
    days, is refreshed under its lock: after the fetch, [Get] takes the
    lock of the session, makes the request to update the document and
    releases the lock, in this order and nothing else.  When the update
    succeeds [Get] returns the session with [LastSeen] set to the clock
    and with the revision that the database gave to the update, and the
    store holds that very session; when the update fails [Get] still
    returns the session, as it is stored, and the store is left as it
    was. *)
Theorem Get_refreshes_LastSeen (w : World) (id : string) (s : Session) :
  docs w !! id = Some s -> DocID s = id ->
  faults w (requests w) = false ->
  clock w (readings w) <= LastSeen s + SessionMaxAge ->
  LastSeen s + 24 * Hour < clock w (S (readings w)) ->
  let refreshed :=
    SetRev (set_LastSeen s (clock w (S (S (readings w)))))
      (revs w (S (requests w))) in
  trace (Get id w).2
  = trace w ++ [GetDoc id;
                Lock ("sessions/" +:+ id);
                UpdateDoc id;
                Unlock ("sessions/" +:+ id)]
  /\ (faults w (S (requests w)) = false ->
      (Get id w).1 = inl refreshed
      /\ docs (Get id w).2 !! id = Some refreshed)
  /\ (faults w (S (requests w)) = true ->
      (Get id w).1 = inl s /\ docs (Get id w).2 = docs w).
Proof.
  intros Hd Hid Hf H1 H2 refreshed.
  rewrite (Get_stale w id s Hf Hd Hid H1 H2).
  simpl. split; [done|]. split; intros ->; [|done].
  split; [done|]. apply lookup_insert_eq.
Qed.

Lemma Get_refreshes_LastSeen_witness :
  let s := {| DocID := "sid"; DocRev := "1-a"; CreatedAt := 0; LastSeen := 0;
              LongRun := false; ShortRun := false; SID := "" |} in
  let refreshed :=
    {| DocID := "sid"; DocRev := "2-b"; CreatedAt := 0;
       LastSeen := 25 * Hour; LongRun := false; ShortRun := false;
       SID := "" |} in
  let w := {| docs := {["sid" := s]}; faults := fun _ => false;
              revs := fun _ => "2-b";
              requests := 0; clock := fun _ => 25 * Hour; readings := 0;
              trace := [] |} in
  trace (Get "sid" w).2
  = [GetDoc "sid"; Lock "sessions/sid"; UpdateDoc "sid";
     Unlock "sessions/sid"]
  /\ (Get "sid" w).1 = inl refreshed
  /\ docs (Get "sid" w).2 !! "sid" = Some refreshed.
Proof.
  intros s refreshed w.
  destruct (Get_refreshes_LastSeen w "sid" s) as (Htrace & Hok & _).
  - apply lookup_singleton_eq.
  - reflexivity.
  - reflexivity.
  - by vm_compute.
  - by vm_compute.
  - split; [exact Htrace | by apply Hok].
Defined.

(** X3.  A session seen in the last 24 hours is returned as it is stored:
    [Get] makes one request, the fetch, writes nothing, takes no lock and
    logs nothing. *)
Theorem Get_recent_session_untouched (w : World) (id : string) (s : Session) :
  docs w !! id = Some s ->
  faults w (requests w) = false ->
  clock w (readings w) <= LastSeen s + SessionMaxAge ->
  clock w (S (readings w)) <= LastSeen s + 24 * Hour ->
  (Get id w).1 = inl s
  /\ docs (Get id w).2 = docs w
  /\ trace (Get id w).2 = trace w ++ [GetDoc id]
  /\ requests (Get id w).2 = S (requests w).
Proof.
  intros Hd Hf H1 H2. by rewrite (Get_recent w id s Hf Hd H1 H2).
Qed.

Lemma Get_recent_session_untouched_witness :
  let s := {| DocID := "sid"; DocRev := "1-a"; CreatedAt := 0; LastSeen := 0;
              LongRun := false; ShortRun := true; SID := "" |} in
  let w := {| docs := {["sid" := s]}; faults := fun _ => false;
              revs := fun _ => "2-b";
              requests := 0; clock := fun _ => 2 * Hour; readings := 0;
              trace := [] |} in
  (Get "sid" w).1 = inl s /\ docs (Get "sid" w).2 = docs w.
Proof.
  intros s w.
  destruct (Get_recent_session_untouched w "sid" s) as (H1 & H2 & _).
  - apply lookup_singleton_eq.
  - reflexivity.
  - by vm_compute.
  - by vm_compute.
  - by split.
Defined.

(** X4.  Whatever the database and the clock do, [Get] touches no document
    but the one it is asked for, and leaves the store keyed by the
    identifiers of its documents. *)
Theorem Get_touches_one_document (w : World) (id : string) :
  well_keyed (docs w) ->
  well_keyed (docs (Get id w).2)
  /\ (forall k, k <> id -> docs (Get id w).2 !! k = docs w !! k).
Proof.
  intros Hwk.
  destruct (Get_cases w id Hwk)
    as [Hno|(s & Hf & Hd & Hid & [Hold|[[H1 H2]|[H1 H2]]])].
  - by rewrite (Get_unanswered w id Hno).
  - rewrite (Get_too_old w id s Hf Hd Hid Hold). simpl.
    destruct (faults w (S (requests w))); [done|]. split.
    + intros k s0 [_ Hk]%lookup_delete_Some. by apply Hwk.
    + intros k Hk. by apply lookup_delete_ne.
  - by rewrite (Get_recent w id s Hf Hd H1 H2).
  - rewrite (Get_stale w id s Hf Hd Hid H1 H2). simpl.
    destruct (faults w (S (requests w))); [done|]. split.
    + intros k s0 [[<- <-]|[_ Hk]]%lookup_insert_Some; [done|by apply Hwk].
    + intros k Hk. by apply lookup_insert_ne.
Qed.

Lemma Get_touches_one_document_witness :
  let s := {| DocID := "sid"; DocRev := "1-a"; CreatedAt := 0; LastSeen := 0;
              LongRun := false; ShortRun := false; SID := "" |} in
  let w := {| docs := {["sid" := s]}; faults := fun _ => false;
              revs := fun _ => "2-b";
              requests := 0; clock := fun _ => 31 * 24 * Hour; readings := 0;
              trace := [] |} in
  well_keyed (docs (Get "other" w).2)
  /\ (forall k, k <> "other" -> docs (Get "other" w).2 !! k = docs w !! k).
Proof.
  intros s w.
  apply (Get_touches_one_document w "other").
  by apply (well_keyed_singleton "sid" s).
Defined.

(** X5.  [Get] never returns with the lock of the session held: what it
    adds to the trace is the fetch alone, or the fetch followed by the
    taking of the lock named after the session, one request to the
    database (the update, or the deletion and one log line), and the
    release of that lock. *)
Theorem Get_releases_lock (w : World) (id : string) :
  well_keyed (docs w) ->
  exists added,
    trace (Get id w).2 = trace w ++ added
    /\ (added = [GetDoc id]
        \/ added = [GetDoc id; Lock ("sessions/" +:+ id); UpdateDoc id;
                    Unlock ("sessions/" +:+ id)]
        \/ exists namespace msg,
             added = [GetDoc id; Lock ("sessions/" +:+ id); DeleteDoc id;
                      Warnf namespace msg; Unlock ("sessions/" +:+ id)]
             \/ added = [GetDoc id; Lock ("sessions/" +:+ id); DeleteDoc id;
                         Infof namespace msg; Unlock ("sessions/" +:+ id)]).
Proof.
  intros Hwk.
  destruct (Get_cases w id Hwk)
    as [Hno|(s & Hf & Hd & Hid & [Hold|[[H1 H2]|[H1 H2]]])].
  - rewrite (Get_unanswered w id Hno). simpl. eauto.
  - rewrite (Get_too_old w id s Hf Hd Hid Hold). simpl.
    eexists. split; [done|]. right. right.
    destruct (faults w (S (requests w))); eauto.
  - rewrite (Get_recent w id s Hf Hd H1 H2). simpl. eauto.
  - rewrite (Get_stale w id s Hf Hd Hid H1 H2). simpl. eauto.
Qed.

Lemma Get_releases_lock_witness :
  let s := {| DocID := "sid"; DocRev := "1-a"; CreatedAt := 0; LastSeen := 0;
              LongRun := false; ShortRun := false; SID := "" |} in
  let w := {| docs := {["sid" := s]}; faults := fun _ => false;
              revs := fun _ => "2-b";
              requests := 0; clock := fun _ => 31 * 24 * Hour; readings := 0;
              trace := [] |} in
  exists added, trace (Get "sid" w).2 = trace w ++ added.
Proof.
  intros s w.
  destruct (Get_releases_lock w "sid") as (added & Hadded & _).
  - by apply (well_keyed_singleton "sid" s).
  - by exists added.
Defined.

(** ** Creating a session *)

Lemma Duration_eqb_eq a b : Duration_eqb a b = true <-> a = b.
Proof. destruct a, b; simpl; split; (done || discriminate). Qed.

(** What [New] does. *)
Lemma New_run uuid rev duration sid w :
  let id := uuid (requests w) in
  let s := {| DocID := id; DocRev := rev;
              CreatedAt := clock w (readings w);
              LastSeen := clock w (readings w);
              LongRun := Duration_eqb duration DurationLongRun;
              ShortRun := Duration_eqb duration DurationShortRun;
              SID := sid |} in
  let created := negb (faults w (requests w))
                 && bool_decide (docs w !! id = None) in
  New uuid rev duration sid w
  = (if created then Some s else None,
     {| docs := if created then <[id := s]> (docs w) else docs w;
        faults := faults w; revs := revs w;
        requests := S (requests w); clock := clock w;
        readings := S (readings w); trace := trace w ++ [CreateDoc] |}).
Proof.
  intros id s created. subst id s created.
  unfold New, couchdb_CreateDoc, time_Now, request, get_docs, put_docs, bind,
    ret. simpl.
  destruct (faults w (requests w)); simpl; [done|].
  by destruct (docs w !! uuid (requests w)) eqn:Hd.
Qed.

Lemma New_lookup uuid rev duration sid w s :
  (New uuid rev duration sid w).1 = Some s ->
  docs (New uuid rev duration sid w).2 !! DocID s = Some s.
Proof.
  rewrite New_run. simpl.
  destruct (negb (faults w (requests w))); simpl; [|discriminate].
  case_bool_decide as Hfree; [|discriminate]. intros [= <-]. simpl.
  apply lookup_insert_eq.
Qed.

(** X6.  A session that [New] returns has the duration asked for, never
    both the flags [LongRun] and [ShortRun], the same clock reading as
    [CreatedAt] and [LastSeen], and the given [SID]; it is stored under its
    identifier, and the other documents are as before. *)
Theorem New_session_stored
    (uuid : nat -> string) (rev : string) (duration : Duration) (sid : string)
    (w : World) (s : Session) :
  (New uuid rev duration sid w).1 = Some s ->
  Session_Duration s = duration
  /\ LongRun s && ShortRun s = false
  /\ CreatedAt s = clock w (readings w)
  /\ LastSeen s = clock w (readings w)
  /\ SID s = sid
  /\ docs (New uuid rev duration sid w).2 !! DocID s = Some s
  /\ docs w !! DocID s = None
  /\ (forall k, k <> DocID s ->
        docs (New uuid rev duration sid w).2 !! k = docs w !! k).
Proof.
  rewrite New_run. simpl.
  destruct (negb (faults w (requests w))); simpl; [|discriminate].
  case_bool_decide as Hfree; [|discriminate]. intros [= <-]. simpl.
  split; [by destruct duration|]. split; [by destruct duration|].
  do 3 (split; [done|]). split; [apply lookup_insert_eq|].
  split; [done|]. intros k Hk. by apply lookup_insert_ne.
Qed.

Lemma New_session_stored_witness :
  let w := {| docs := ∅; faults := fun _ => false;
              revs := fun _ => "2-b"; requests := 0;
              clock := fun _ => 5; readings := 0; trace := [] |} in
  let s := {| DocID := "id0"; DocRev := "1-a"; CreatedAt := 5; LastSeen := 5;
              LongRun := true; ShortRun := false; SID := "oidc" |} in
  Session_Duration s = DurationLongRun
  /\ docs (New (fun _ => "id0") "1-a" DurationLongRun "oidc" w).2 !! "id0"
     = Some s.
Proof.
  intros w s.
  destruct (New_session_stored (fun _ => "id0") "1-a" DurationLongRun "oidc"
              w s) as (Hd & _ & _ & _ & _ & Hs & _).
  - reflexivity.
  - by split.
Defined.

(** X7.  A session just created is the one [Get] returns for its
    identifier, as long as the fetch is answered and the clock has not
    passed 24 hours: [New] and [Get] are an insert and its lookup. *)
Theorem New_then_Get
    (uuid : nat -> string) (rev : string) (duration : Duration) (sid : string)
    (w : World) (s : Session) :
  let w' := (New uuid rev duration sid w).2 in
  (New uuid rev duration sid w).1 = Some s ->
  faults w' (requests w') = false ->
  clock w' (readings w') <= LastSeen s + SessionMaxAge ->
  clock w' (S (readings w')) <= LastSeen s + 24 * Hour ->
  (Get (DocID s) w').1 = inl s /\ docs (Get (DocID s) w').2 = docs w'.
Proof.
  intros w' Hnew Hf H1 H2.
  pose proof (New_lookup uuid rev duration sid w s Hnew) as Hs.
  by rewrite (Get_recent w' (DocID s) s Hf Hs H1 H2).
Qed.

Lemma New_then_Get_witness :
  let w := {| docs := ∅; faults := fun _ => false;
              revs := fun _ => "2-b"; requests := 0;
              clock := fun _ => 5; readings := 0; trace := [] |} in
  let s := {| DocID := "id0"; DocRev := "1-a"; CreatedAt := 5; LastSeen := 5;
              LongRun := false; ShortRun := true; SID := "" |} in
  (Get "id0" (New (fun _ => "id0") "1-a" DurationShortRun "" w).2).1 = inl s.
Proof.
  intros w s.
  destruct (New_then_Get (fun _ => "id0") "1-a" DurationShortRun "" w s)
    as [H _].
  - reflexivity.
  - reflexivity.
  - by vm_compute.
  - by vm_compute.
  - exact H.
Defined.

(** ** Cookies *)

Lemma Duration_MaxAge duration :
  (if Duration_eqb duration DurationLongRun then 10 * 365 * 24 * 3600
   else if Duration_eqb duration DurationShortRun then 5 * 60 else 0)
  = match duration with
    | DurationShortRun => 300
    | DurationNormalRun => 0
    | DurationLongRun => 315360000
    end.
Proof. by destruct duration. Qed.

(** X8.  The cookie of a session created by [New] lives as long as the
    duration asked for: 300 seconds for a short run, 315360000 for a long
    run, and until the browser closes (0) otherwise.  It is always
    HTTP-only and [SameSite=Lax], on the path [/], and secure except in a
    development release. *)
Theorem New_ToCookie_MaxAge
    (FlatSubdomains IsDevRelease : bool)
    (utils_CookieDomain : string -> string)
    (EncodeAuthMessage : MACConfig -> string -> string -> option string)
    (uuid : nat -> string) (rev : string) (duration : Duration) (sid : string)
    (w : World) (inst : Instance) (s : Session) (c : Cookie) :
  (New uuid rev duration sid w).1 = Some s ->
  ToCookie FlatSubdomains IsDevRelease utils_CookieDomain EncodeAuthMessage
    inst s = Some c ->
  MaxAge c = match duration with
             | DurationShortRun => 300
             | DurationNormalRun => 0
             | DurationLongRun => 315360000
             end
  /\ HttpOnly c = true /\ SameSiteLax c = true /\ Path c = "/"
  /\ Secure c = negb IsDevRelease.
Proof.
  rewrite New_run. simpl.
  destruct (negb (faults w (requests w)) && _); simpl; [|discriminate].
  intros [= <-]. unfold ToCookie. simpl.
  destruct (EncodeAuthMessage _ _ _) as [encoded|]; simpl; [|discriminate].
  intros [= <-]. simpl. by rewrite Duration_MaxAge.
Qed.

Lemma New_ToCookie_MaxAge_witness :
  let w := {| docs := ∅; faults := fun _ => false;
              revs := fun _ => "2-b"; requests := 0;
              clock := fun _ => 5; readings := 0; trace := [] |} in
  let inst := {| DBPrefix := "cozy1"; ContextualDomain := "a.cozy.example";
                 SessionSecret := "secret" |} in
  let s := {| DocID := "id0"; DocRev := "1-a"; CreatedAt := 5; LastSeen := 5;
              LongRun := false; ShortRun := true; SID := "" |} in
  let c := {| Name := "sess-cozy1"; Value := "mac:id0"; MaxAge := 300;
              Path := "/"; Domain := ".cozy.example"; Secure := true;
              HttpOnly := true; SameSiteLax := true |} in
  ToCookie true false (fun d => d) (fun _ _ m => Some ("mac:" +:+ m)) inst s
  = Some c
  /\ MaxAge c = 300.
Proof.
  intros w inst s c.
  assert (ToCookie true false (fun d => d) (fun _ _ m => Some ("mac:" +:+ m))
            inst s = Some c) as Hc by reflexivity.
  split; [exact Hc|].
  by destruct (New_ToCookie_MaxAge true false (fun d => d)
                 (fun _ _ m => Some ("mac:" +:+ m)) (fun _ => "id0") "1-a"
                 DurationShortRun "" w inst s c eq_refl Hc) as [H _].
Defined.

Section CookieFacts.
Variable FlatSubdomains : bool.
Variable IsDevRelease : bool.
Variable utils_CookieDomain : string -> string.
Variable EncodeAuthMessage : MACConfig -> string -> string -> option string.
Variable DecodeAuthMessage : MACConfig -> string -> string -> option string.

(** What [Delete] does to the world. *)
Lemma Delete_run s i w :
  Delete FlatSubdomains utils_CookieDomain s i w
  = ({| Name := CookieName FlatSubdomains i; Value := ""; MaxAge := -1;
        Path := "/"; Domain := CookieDomain FlatSubdomains utils_CookieDomain i;
        Secure := false; HttpOnly := false; SameSiteLax := false |},
     {| docs := if faults w (requests w) then docs w
                else delete (DocID s) (docs w);
        faults := faults w; revs := revs w;
        requests := S (requests w); clock := clock w;
        readings := readings w;
        trace :=
          trace w
          ++ [DeleteDoc (DocID s);
              if faults w (requests w)
                 || bool_decide (docs w !! DocID s = None)
              then Errorf "loginaudit" "Failed to delete session"
              else Infof "loginaudit" ("Session deleted: " +:+ DocID s)] |}).
Proof.
  unfold Delete, couchdb_DeleteDoc, emit, request, get_docs, put_docs, bind,
    ret. simpl.
  destruct (faults w (requests w)); simpl; [by rewrite <- app_assoc|].
  destruct (docs w !! DocID s) eqn:Hd; simpl; [by rewrite <- app_assoc|].
  by rewrite delete_id, <- app_assoc.
Qed.

Lemma for_each_cons body s l w :
  (for_each (s :: l) body w).2 = (for_each l body (body s w).2).2.
Proof. simpl. unfold bind. by destruct (body s w). Qed.

(** The loop of [DeleteOthers] and [DeleteBySID]: the sessions chosen by
    [chosen] are deleted one after the other. *)
Lemma for_each_Delete_world (chosen : Session -> bool) i l w :
  let w' := (for_each l
               (fun s =>
                  if chosen s
                  then bind (Delete FlatSubdomains utils_CookieDomain s i)
                         (fun _ => ret tt)
                  else ret tt) w).2 in
  faults w' = faults w
  /\ (forall k, (forall s, s ∈ l -> chosen s = true -> DocID s <> k) ->
        docs w' !! k = docs w !! k)
  /\ (forall k, docs w !! k = None -> docs w' !! k = None)
  /\ ((forall n, faults w n = false) ->
      forall s, s ∈ l -> chosen s = true -> docs w' !! DocID s = None).
Proof.
  revert w. induction l as [|s l IH]; intros w.
  { simpl. split; [done|]. split; [done|]. split; [done|].
    intros _ s Hs. by apply elem_of_nil in Hs. }
  cbv zeta. rewrite for_each_cons.
  set (w1 := ((if chosen s
               then bind (Delete FlatSubdomains utils_CookieDomain s i)
                      (fun _ => ret tt)
               else ret tt) w).2).
  assert (faults w1 = faults w
          /\ docs w1 = if chosen s && negb (faults w (requests w))
                       then delete (DocID s) (docs w) else docs w)
    as [Hf1 Hd1].
  { subst w1. destruct (chosen s); [|done].
    unfold bind. rewrite Delete_run. simpl.
    by destruct (faults w (requests w)). }
  destruct (IH w1) as (Hfa & Hfr & Hno & Hall).
  split; [congruence|]. split; [|split].
  - intros k Hk. rewrite Hfr.
    + rewrite Hd1. destruct (chosen s) eqn:Hc; [|done].
      destruct (faults w (requests w)); [done|]. simpl.
      apply lookup_delete_ne. apply Hk; [left | done].
    + intros s' Hs'. apply Hk. by right.
  - intros k Hk. apply Hno. rewrite Hd1.
    destruct (chosen s && negb (faults w (requests w))); [|done].
    by rewrite lookup_delete_None; right.
  - intros Hnf s' [->|Hs']%elem_of_cons Hc'.
    + apply Hno. rewrite Hd1, Hc', Hnf. simpl. apply lookup_delete_eq.
    + apply Hall; [|done|done]. intros n. rewrite Hf1. apply Hnf.
Qed.

Lemma elem_of_stored (d : gmap string Session) s :
  s ∈ (map_to_list d).*2 <-> exists k, d !! k = Some s.
Proof.
  rewrite list_elem_of_fmap. split.
  - intros ([k s'] & -> & Hin%elem_of_map_to_list). by exists k.
  - intros [k Hk]. exists (k, s). split; [done|]. by apply elem_of_map_to_list.
Qed.

(** What [DeleteOthers] and [DeleteBySID] do, in terms of their loop. *)
Lemma delete_chosen_run (chosen : Session -> bool) i w :
  let body := fun s =>
    if chosen s
    then bind (Delete FlatSubdomains utils_CookieDomain s i) (fun _ => ret tt)
    else ret tt in
  let w1 := {| docs := docs w; faults := faults w; revs := revs w;
               requests := S (requests w); clock := clock w;
               readings := readings w; trace := trace w ++ [ForeachDocs] |} in
  (let* r := couchdb_ForeachDocs in
   match r with
   | None => ret true
   | Some sessions => for_each sessions body ;; ret false
   end) w
  = if faults w (requests w) then (true, w1)
    else (false, (for_each (map_to_list (docs w)).*2 body w1).2).
Proof.
  intros body w1. unfold couchdb_ForeachDocs, request, get_docs, bind, ret.
  simpl. destruct (faults w (requests w)); [done|]. simpl. fold w1.
  by destruct (for_each _ body w1).
Qed.

End CookieFacts.

(** X9.  [DeleteOthers] never deletes the session it is given: whatever
    the database does, the document of [selfSessionID] is left as it is.
    It reports an error only when the enumeration fails, and when no
    request fails no other session is left in the store. *)
Theorem DeleteOthers_keeps_self
    (FlatSubdomains : bool) (utils_CookieDomain : string -> string)
    (i : Instance) (selfSessionID : string) (w : World) :
  let r := DeleteOthers FlatSubdomains utils_CookieDomain i selfSessionID w in
  r.1 = faults w (requests w)
  /\ docs r.2 !! selfSessionID = docs w !! selfSessionID
  /\ (well_keyed (docs w) -> (forall n, faults w n = false) ->
      forall k, k <> selfSessionID -> docs r.2 !! k = None).
Proof.
  intros r. subst r. unfold DeleteOthers.
  rewrite (delete_chosen_run FlatSubdomains utils_CookieDomain
             (fun s => negb (String.eqb (DocID s) selfSessionID)) i w).
  destruct (faults w (requests w)) eqn:Hf.
  { simpl. split; [done|]. split; [done|]. intros _ Hnf. by rewrite Hnf in Hf. }
  match goal with |- context [for_each ?l ?body ?w1] =>
    destruct (for_each_Delete_world FlatSubdomains utils_CookieDomain
                (fun s => negb (String.eqb (DocID s) selfSessionID)) i l w1)
      as (_ & Hfr & Hno & Hall) end.
  simpl in *. split; [done|]. split.
  - apply Hfr. intros s _ Hc%negb_true_iff. by apply String.eqb_neq.
  - intros Hwk Hnf k Hk. destruct (docs w !! k) as [s|] eqn:Hd; [|by apply Hno].
    rewrite <- (Hwk k s Hd). apply Hall; [done| |].
    + apply elem_of_stored. by exists k.
    + apply negb_true_iff, String.eqb_neq. by rewrite (Hwk k s Hd).
Qed.

Lemma DeleteOthers_keeps_self_witness :
  let session id :=
    {| DocID := id; DocRev := "1-a"; CreatedAt := 0; LastSeen := 0;
       LongRun := false; ShortRun := false; SID := "" |} in
  let w := {| docs := {["a" := session "a"; "b" := session "b"]};
              faults := fun _ => false;
              revs := fun _ => "2-b"; requests := 0; clock := fun _ => 0;
              readings := 0; trace := [] |} in
  let i := {| DBPrefix := "cozy1"; ContextualDomain := "a.cozy.example";
              SessionSecret := "secret" |} in
  docs (DeleteOthers false (fun d => d) i "a" w).2 !! "a" = Some (session "a")
  /\ docs (DeleteOthers false (fun d => d) i "a" w).2 !! "b" = None.
Proof.
  intros session w i.
  destruct (DeleteOthers_keeps_self false (fun d => d) i "a" w)
    as (_ & Hself & Hothers).
  split.
  - rewrite Hself. reflexivity.
  - apply Hothers; [|done|done].
    by apply (well_keyed_insert "a"), (well_keyed_singleton "b").
Defined.

(** X10.  [DeleteBySID] leaves every session with another [SID] as it is,
    whatever the database does, and when no request fails it leaves no
    session with the given [SID] in the store.  It reports an error only
    when the enumeration fails. *)
Theorem DeleteBySID_deletes_matching
    (FlatSubdomains : bool) (utils_CookieDomain : string -> string)
    (inst : Instance) (sid : string) (w : World) :
  well_keyed (docs w) ->
  let r := DeleteBySID FlatSubdomains utils_CookieDomain inst sid w in
  r.1 = faults w (requests w)
  /\ (forall k s, docs w !! k = Some s -> SID s <> sid ->
        docs r.2 !! k = Some s)
  /\ ((forall n, faults w n = false) ->
      forall k s, docs w !! k = Some s -> SID s = sid -> docs r.2 !! k = None).
Proof.
  intros Hwk r. subst r. unfold DeleteBySID.
  rewrite (delete_chosen_run FlatSubdomains utils_CookieDomain
             (fun s => String.eqb (SID s) sid) inst w).
  destruct (faults w (requests w)) eqn:Hf.
  { simpl. split; [done|]. split; [done|]. intros Hnf. by rewrite Hnf in Hf. }
  match goal with |- context [for_each ?l ?body ?w1] =>
    destruct (for_each_Delete_world FlatSubdomains utils_CookieDomain
                (fun s => String.eqb (SID s) sid) inst l w1)
      as (_ & Hfr & Hno & Hall) end.
  simpl in *. split; [done|]. split.
  - intros k s Hd Hsid. rewrite Hfr; [done|].
    intros s' [k' Hk']%elem_of_stored Hc%String.eqb_eq Hid.
    rewrite (Hwk k' s' Hk') in Hid. subst k'. congruence.
  - intros Hnf k s Hd Hsid. rewrite <- (Hwk k s Hd). apply Hall; [done| |].
    + apply elem_of_stored. by exists k.
    + by apply String.eqb_eq.
Qed.

Lemma DeleteBySID_deletes_matching_witness :
  let session id sid :=
    {| DocID := id; DocRev := "1-a"; CreatedAt := 0; LastSeen := 0;
       LongRun := false; ShortRun := false; SID := sid |} in
  let w := {| docs := {["a" := session "a" "x"; "b" := session "b" "y"]};
              faults := fun _ => false;
              revs := fun _ => "2-b"; requests := 0; clock := fun _ => 0;
              readings := 0; trace := [] |} in
  let i := {| DBPrefix := "cozy1"; ContextualDomain := "a.cozy.example";
              SessionSecret := "secret" |} in
  docs (DeleteBySID false (fun d => d) i "x" w).2 !! "a" = None
  /\ docs (DeleteBySID false (fun d => d) i "x" w).2 !! "b"
     = Some (session "b" "y").
Proof.
  intros session w i.
  destruct (DeleteBySID_deletes_matching false (fun d => d) i "x" w)
    as (_ & Hkeep & Hdel).
  - by apply (well_keyed_insert "a"), (well_keyed_singleton "b").
  - split.
    + by apply (Hdel (fun _ => eq_refl) "a" (session "a" "x")).
    + by apply Hkeep.
Defined.

(** X11.  Without a cookie, with an empty one, or with one that
    [crypto.DecodeAuthMessage] rejects, [FromCookie] returns its error
    without a request to the database: the world is left as it is, and no
    session identifier is looked up. *)
Theorem FromCookie_rejects_before_lookup
    (FlatSubdomains : bool)
    (DecodeAuthMessage : MACConfig -> string -> string -> option string)
    (cookie : string -> option string) (i : Instance) (w : World) :
  let name := CookieName FlatSubdomains i in
  let decoded value :=
    DecodeAuthMessage (cookieSessionMACConfig FlatSubdomains i)
      (SessionSecret i) value in
  (cookie name = None \/ cookie name = Some ""
   \/ exists value, cookie name = Some value /\ decoded value = None) ->
  exists e,
    FromCookie FlatSubdomains DecodeAuthMessage cookie i w = (inr e, w)
    /\ (e = DecodeError <-> exists value, value <> "" /\ cookie name = Some value).
Proof.
  intros name decoded H. subst name decoded. unfold FromCookie.
  destruct (cookie (CookieName FlatSubdomains i)) as [value|] eqn:Hc.
  - destruct (String.eqb_spec value "") as [->|Hne].
    + eexists. split; [done|]. split; [done|]. by intros (v & Hv & [= <-]).
    + destruct H as [?|[[= ?]|(v & [= <-] & Hdec)]]; [done..|].
      rewrite Hdec. exists DecodeError. split; [done|]. split; [|done].
      intros _. by exists value.
  - eexists. split; [done|]. split; [done|]. by intros (v & _ & ?).
Qed.

Lemma FromCookie_rejects_before_lookup_witness :
  let i := {| DBPrefix := "cozy1"; ContextualDomain := "a.cozy.example";
              SessionSecret := "secret" |} in
  let w := {| docs := ∅; faults := fun _ => false;
              revs := fun _ => "2-b"; requests := 0;
              clock := fun _ => 0; readings := 0; trace := [] |} in
  exists e,
    FromCookie false (fun _ _ _ => None) (fun _ => Some "forged") i w
    = (inr e, w).
Proof.
  intros i w.
  destruct (FromCookie_rejects_before_lookup false (fun _ _ _ => None)
              (fun _ => Some "forged") i w) as (e & He & _).
  - right. right. by exists "forged".
  - by exists e.
Defined.

(** X12.  [FromCookie] reads the cookie under the name [ToCookie] gives it
    and decodes it with the configuration and the secret [ToCookie] encodes
    with: when [crypto.DecodeAuthMessage] undoes [crypto.EncodeAuthMessage]
    and the encoded value is not empty, [FromCookie] on the cookie of a
    session does what [Get] does on the identifier of the session. *)
Theorem FromCookie_ToCookie
    (FlatSubdomains IsDevRelease : bool)
    (utils_CookieDomain : string -> string)
    (EncodeAuthMessage DecodeAuthMessage :
       MACConfig -> string -> string -> option string)
    (cookie : string -> option string) (inst : Instance) (s : Session)
    (c : Cookie) (w : World) :
  (forall config key message encoded,
     EncodeAuthMessage config key message = Some encoded ->
     DecodeAuthMessage config key encoded = Some message) ->
  ToCookie FlatSubdomains IsDevRelease utils_CookieDomain EncodeAuthMessage
    inst s = Some c ->
  Value c <> "" ->
  cookie (Name c) = Some (Value c) ->
  FromCookie FlatSubdomains DecodeAuthMessage cookie inst w
  = (match (Get (DocID s) w).1 with
     | inl s' => inl s'
     | inr e => inr (SessionError e)
     end, (Get (DocID s) w).2).
Proof.
  intros Hcrypto Hc Hne Hcookie. unfold ToCookie in Hc.
  destruct (EncodeAuthMessage _ _ _) as [encoded|] eqn:Henc;
    simpl in Hc; [|discriminate].
  injection Hc as <-. simpl in *. unfold FromCookie. rewrite Hcookie.
  apply String.eqb_neq in Hne. rewrite Hne.
  rewrite (Hcrypto _ _ _ _ Henc). unfold bind.
  destruct (Get (DocID s) w) as [[s'|e] w']; done.
Qed.

Lemma FromCookie_ToCookie_witness :
  let inst := {| DBPrefix := "cozy1"; ContextualDomain := "a.cozy.example";
                 SessionSecret := "secret" |} in
  let s := {| DocID := "id0"; DocRev := "1-a"; CreatedAt := 5; LastSeen := 5;
              LongRun := false; ShortRun := true; SID := "" |} in
  let w := {| docs := {["id0" := s]}; faults := fun _ => false;
              revs := fun _ => "2-b"; requests := 0;
              clock := fun _ => 6; readings := 0; trace := [] |} in
  (FromCookie true (fun _ _ v => Some (GoStrings.sdrop 4 v))
     (fun _ => Some "mac:id0") inst w).1 = inl s.
Proof.
  intros inst s w.
  rewrite (FromCookie_ToCookie true false (fun d => d)
             (fun _ _ m => Some ("mac:" +:+ m))
             (fun _ _ v => Some (GoStrings.sdrop 4 v))
             (fun _ => Some "mac:id0") inst s
             {| Name := "sess-cozy1"; Value := "mac:id0"; MaxAge := 300;
                Path := "/"; Domain := ".cozy.example"; Secure := true;
                HttpOnly := true; SameSiteLax := true |} w).
  - reflexivity.
  - intros config key message encoded [= <-]. reflexivity.
  - reflexivity.
  - discriminate.
  - reflexivity.
Defined.

(** ** Listing the sessions *)

(** The loop of [GetAll] reads the clock once for each session, keeps the
    order, and loses no session. *)
Lemma partition_sessions_run sessions kept expired w :
  exists k e,
    partition_sessions sessions kept expired w
    = ((kept ++ k, expired ++ e),
       {| docs := docs w; faults := faults w; revs := revs w;
      requests := requests w;
          clock := clock w;
          readings := (readings w + length sessions)%nat;
          trace := trace w |})
    /\ sessions ≡ₚ k ++ e
    /\ (forall s, s ∈ k ->
          exists n, (readings w <= n < readings w + length sessions)%nat
                    /\ clock w n <= LastSeen s + SessionMaxAge)
    /\ (forall s, s ∈ e ->
          exists n, (readings w <= n < readings w + length sessions)%nat
                    /\ LastSeen s + SessionMaxAge < clock w n).
Proof.
  revert kept expired w.
  induction sessions as [|sess rest IH]; intros kept expired w.
  - exists [], []. simpl. rewrite !app_nil_r, Nat.add_0_r.
    split; [by destruct w|]. split; [done|].
    split; intros s Hs; by apply elem_of_nil in Hs.
  - simpl. unfold bind at 1. unfold OlderThan, bind, time_Now, ret. simpl.
    destruct (Z.ltb_spec (LastSeen sess + SessionMaxAge) (clock w (readings w)))
      as [Hold|Hyoung].
    + match goal with |- context [partition_sessions rest ?k0 ?e0 ?w1] =>
        destruct (IH k0 e0 w1) as (k & e & Hrun & Hperm & Hk & He) end.
      simpl in *. exists k, (sess :: e). rewrite Hrun, <- !app_assoc. simpl.
      split; [do 2 f_equal; lia|].
      split; [by rewrite <- Permutation_middle, <- Hperm|].
      split.
      * intros s Hs. destruct (Hk s Hs) as (n & Hn & Hc). exists n.
        split; [lia | done].
      * intros s [->|Hs]%elem_of_cons.
        -- exists (readings w). split; [lia | done].
        -- destruct (He s Hs) as (n & Hn & Hc). exists n. split; [lia | done].
    + match goal with |- context [partition_sessions rest ?k0 ?e0 ?w1] =>
        destruct (IH k0 e0 w1) as (k & e & Hrun & Hperm & Hk & He) end.
      simpl in *. exists (sess :: k), e. rewrite Hrun, <- !app_assoc. simpl.
      split; [do 2 f_equal; lia|].
      split; [by rewrite Hperm|].
      split.
      * intros s [->|Hs]%elem_of_cons.
        -- exists (readings w). split; [lia | done].
        -- destruct (Hk s Hs) as (n & Hn & Hc). exists n. split; [lia | done].
      * intros s Hs. destruct (He s Hs) as (n & Hn & Hc). exists n.
        split; [lia | done].
Qed.

Lemma lookup_bulk_delete (l : list Session) (d : gmap string Session) k :
  foldr (fun s d => delete (DocID s) d) d l !! k
  = if bool_decide (k ∈ DocID <$> l) then None else d !! k.
Proof.
  induction l as [|s l IH]; simpl; [done|].
  destruct (decide (DocID s = k)) as [<-|Hne].
  - rewrite lookup_delete_eq. by rewrite bool_decide_eq_true_2 by left.
  - rewrite lookup_delete_ne, IH by done.
    destruct (decide (k ∈ DocID <$> l)) as [Hin|Hnin].
    + rewrite !bool_decide_eq_true_2; [done | by right | done].
    + rewrite !bool_decide_eq_false_2; [done | | done].
      intros [?|?]%elem_of_cons; [congruence | by apply Hnin].
Qed.

(** In a store keyed by the identifiers, the identifiers of the documents
    are the keys. *)
Lemma stored_identifiers (d : gmap string Session) :
  well_keyed d -> DocID <$> (map_to_list d).*2 = (map_to_list d).*1.
Proof.
  intros Hwk. rewrite <- list_fmap_compose. apply list_fmap_ext.
  intros i [k s] Hi. simpl. apply Hwk, elem_of_map_to_list.
  by eapply list_elem_of_lookup_2.
Qed.

(** What [GetAll] does when the enumeration is answered. *)
Lemma GetAll_run w :
  faults w (requests w) = false ->
  let sessions := take (Z.to_nat 50000) (map_to_list (docs w)).*2 in
  exists kept expired,
    (GetAll w).1 = Some kept
    /\ sessions ≡ₚ kept ++ expired
    /\ (forall s, s ∈ kept ->
          exists n, (readings w <= n < readings w + length sessions)%nat
                    /\ clock w n <= LastSeen s + SessionMaxAge)
    /\ (forall s, s ∈ expired ->
          exists n, (readings w <= n < readings w + length sessions)%nat
                    /\ LastSeen s + SessionMaxAge < clock w n)
    /\ docs (GetAll w).2
       = if faults w (S (requests w)) then docs w
         else foldr (fun s d => delete (DocID s) d) (docs w) expired.
Proof.
  intros Hf sessions.
  unfold GetAll, couchdb_GetAllDocs, bind, request, get_docs, ret. simpl.
  rewrite Hf. cbn [docs]. fold sessions.
  match goal with |- context [partition_sessions sessions [] [] ?w1] =>
    destruct (partition_sessions_run sessions [] [] w1)
      as (kept & expired & Hrun & Hperm & Hk & He) end.
  exists kept, expired. rewrite Hrun. simpl in *.
  split; [|split; [done|split; [done|split; [done|]]]].
  - destruct expired; simpl; [done|].
    unfold couchdb_BulkDeleteDocs, request, get_docs, put_docs, emit, bind, ret.
    simpl. by destruct (faults w (S (requests w))).
  - destruct expired; simpl; [by destruct (faults w (S (requests w)))|].
    unfold couchdb_BulkDeleteDocs, request, get_docs, put_docs, emit, bind, ret.
    simpl. by destruct (faults w (S (requests w))).
Qed.

(** X13.  When the enumeration is answered and the store holds at most
    50000 sessions, [GetAll] returns stored sessions only, each one seen in
    the last 30 days at one of the readings of the clock, and never
    deletes a session it returns.  A stored session that is not returned
    was last seen more than 30 days before one of the readings, and it is
    deleted when the bulk deletion succeeds; when the deletion fails the
    list is returned all the same. *)
Theorem GetAll_keeps_unexpired (w : World) :
  faults w (requests w) = false ->
  well_keyed (docs w) ->
  (size (docs w) <= Z.to_nat 50000)%nat ->
  exists kept,
    (GetAll w).1 = Some kept
    /\ (forall s, s ∈ kept ->
          docs w !! DocID s = Some s
          /\ docs (GetAll w).2 !! DocID s = Some s
          /\ exists n, (readings w <= n < readings w + size (docs w))%nat
                       /\ clock w n <= LastSeen s + SessionMaxAge)
    /\ (forall k s, docs w !! k = Some s -> s ∉ kept ->
          (exists n, (readings w <= n < readings w + size (docs w))%nat
                     /\ LastSeen s + SessionMaxAge < clock w n)
          /\ (faults w (S (requests w)) = false ->
              docs (GetAll w).2 !! k = None)).
Proof.
  intros Hf Hwk Hsize.
  destruct (GetAll_run w Hf) as (kept & expired & Hres & Hperm & Hk & He & Hd).
  rewrite take_ge in Hperm, Hk, He
    by (by rewrite length_fmap, length_map_to_list).
  rewrite length_fmap, length_map_to_list in Hk, He.
  assert (NoDup (DocID <$> kept ++ expired)) as Hnd.
  { rewrite <- Hperm, stored_identifiers by done. apply NoDup_fst_map_to_list. }
  rewrite fmap_app in Hnd. apply NoDup_app in Hnd as (_ & Hdisj & _).
  assert (forall s, s ∈ kept ++ expired -> docs w !! DocID s = Some s)
    as Hstored.
  { intros s Hs. rewrite <- Hperm in Hs.
    apply elem_of_stored in Hs as [k Hs]. by rewrite (Hwk k s Hs). }
  exists kept. split; [done|]. split.
  - intros s Hs. split; [apply Hstored, elem_of_app; by left|].
    split; [|by apply Hk]. rewrite Hd.
    destruct (faults w (S (requests w)));
      [apply Hstored, elem_of_app; by left|].
    rewrite lookup_bulk_delete, bool_decide_eq_false_2.
    + apply Hstored, elem_of_app. by left.
    + apply Hdisj, list_elem_of_fmap. by exists s.
  - intros k s Hs Hnk.
    assert (s ∈ expired) as Hexp.
    { assert (s ∈ kept ++ expired) as [?|?]%elem_of_app; [|done|done].
      rewrite <- Hperm. apply elem_of_stored. by exists k. }
    split; [by apply He|]. intros Hok. rewrite Hd, Hok, lookup_bulk_delete.
    rewrite bool_decide_eq_true_2; [done|].
    apply list_elem_of_fmap. exists s. split; [|done]. by rewrite (Hwk k s Hs).
Qed.

Lemma GetAll_keeps_unexpired_witness :
  let session id seen :=
    {| DocID := id; DocRev := "1-a"; CreatedAt := 0; LastSeen := seen;
       LongRun := false; ShortRun := false; SID := "" |} in
  let w := {| docs := {["a" := session "a" 0;
                        "b" := session "b" (30 * 24 * Hour)]};
              faults := fun _ => false;
              revs := fun _ => "2-b"; requests := 0;
              clock := fun _ => 31 * 24 * Hour; readings := 0; trace := [] |} in
  exists kept, (GetAll w).1 = Some kept.
Proof.
  intros session w.
  destruct (GetAll_keeps_unexpired w) as (kept & Hkept & _).
  - reflexivity.
  - by apply (well_keyed_insert "a"), (well_keyed_singleton "b").
  - assert (size (docs w) = 2%nat) as -> by reflexivity. lia.
  - by exists kept.
Defined.

(** ** The domain of the cookie *)

(** X14.  With flat subdomains the cookie is put one level above the
    domain of the instance: the first label of the domain is dropped, and
    a domain of one label is kept whole.  With nested subdomains the
    domain of the instance is used.  In every case a dot is put in front
    before [utils.CookieDomain] is applied. *)
Theorem CookieDomain_one_level_higher
    (utils_CookieDomain : string -> string) (i : Instance) :
  CookieDomain false utils_CookieDomain i
  = utils_CookieDomain ("." +:+ ContextualDomain i)
  /\ (GoStrings.byte_free "." (ContextualDomain i) ->
      CookieDomain true utils_CookieDomain i
      = utils_CookieDomain ("." +:+ ContextualDomain i))
  /\ (forall label rest,
        ContextualDomain i = label +:+ "." +:+ rest ->
        GoStrings.byte_free "." label ->
        CookieDomain true utils_CookieDomain i
        = utils_CookieDomain ("." +:+ rest)).
Proof.
  split; [done|]. unfold CookieDomain. split.
  - intros Hfree. by rewrite GoStringsFacts.SplitN2_none.
  - intros label rest -> Hfree.
    change (label +:+ "." +:+ rest) with (label +:+ String "." rest).
    by rewrite (GoStringsFacts.SplitN2_found label rest "." Hfree).
Qed.

Lemma CookieDomain_one_level_higher_witness :
  CookieDomain true (fun d => d)
    {| DBPrefix := "cozy1"; ContextualDomain := "example.mycozy.cloud";
       SessionSecret := "secret" |}
  = ".mycozy.cloud".
Proof.
  apply (proj2 (proj2 (CookieDomain_one_level_higher (fun d => d)
           {| DBPrefix := "cozy1"; ContextualDomain := "example.mycozy.cloud";
              SessionSecret := "secret" |})) "example" "mycozy.cloud").
  - reflexivity.
  - apply GoStringsFacts.IndexByte_free. reflexivity.
Defined.

End SessionFacts.
